(** * DrawIt multiplayer: room registry, game state machine and guess arbitration

    A shallow embedding of the server modules [rooms.js], [gameState.js] and
    of the socket handlers of the server entry point, together with the two
    client helpers [generateWordOptions] (services/words.ts) and
    [getMaskedWord] (App.tsx).

    Conventions of the embedding
    - The two module-level [Map]s ([rooms], [gameStates]) are finite maps
      keyed by the room code; every exported function threads the map it
      reads and writes.
    - A [players] array holds mutable player objects; it is a list that is
      updated by index, so that two reads of the same index see the same
      object.
    - JavaScript numbers that the code keeps integral (scores, seconds,
      indices) are [Z] or [nat].
    - Strings are sequences of 8-bit code units read as Latin-1; this covers
      every word of the word lists.
    - [Math.random] is an oracle: a list of naturals consumed front to back.
    - A thrown [TypeError] is the outcome [Threw].
    - Message ids and timestamps ([Math.random], [Date.now]), the
      [createdAt] stamp of a room, the avatar and type of a player (opaque
      to the server) and the socket broadcasts are not part of the
      model. *)

From Stdlib Require Import ZArith Ascii String Lia.
From stdpp Require Import gmap strings list fin_maps pretty.

Local Open Scope Z_scope.

(** ** Data model *)

Inductive GamePhase :=
  | MENU | HOST_SETUP | LOBBY_BROWSER | LOBBY_WAITING | ROOM_LOBBY
  | ROUND_START | TURN_START | WORD_SELECTION | DRAWING | TURN_END
  | ROUND_END | GAME_OVER.

Global Instance GamePhase_eq_dec : EqDecision GamePhase.
Proof. solve_decision. Defined.

Inductive Category := ACTION | THING | PLACE.

Global Instance Category_eq_dec : EqDecision Category.
Proof. solve_decision. Defined.

Record WordOption := mkWord { word : string; category : Category }.

Record Player := mkPlayer {
  pl_id : string;
  pl_name : string;
  score : Z;
  hasGuessedCorrectly : bool
}.

Record ChatMessage := mkMsg {
  playerId : string;
  playerName : string;
  text : string;
  isSystem : bool;
  isCorrectGuess : option bool
}.

Record GameState := mkState {
  phase : GamePhase;
  currentRound : Z;
  totalRounds : Z;
  currentPlayerIndex : nat;
  currentWord : option WordOption;
  wordOptions : list WordOption;
  timeLeft : Z;
  messages : list ChatMessage;
  canvasData : option string;
  usedWords : list string;
  timerInterval : option nat
}.

Inductive RoomStatus := WAITING | PLAYING.

Global Instance RoomStatus_eq_dec : EqDecision RoomStatus.
Proof. solve_decision. Defined.

Record Room := mkRoom {
  room_id : string;
  room_name : string;
  isPrivate : bool;
  password : option string;
  hostId : option string;
  players : list Player;
  maxPlayers : nat;
  status : RoomStatus
}.

(** Outcome of a call that may throw. *)
Inductive outcome (A : Type) :=
  | Returned (a : A)
  | Threw.
Arguments Returned {A} a.
Arguments Threw {A}.

(** ** Game constants (gameState.js, constants.ts) *)

Definition TOTAL_ROUNDS : Z := 3.
Definition TURN_DURATION_SECONDS : Z := 80.
Definition POINTS_DRAWER_ALL_GUESSED : Z := 300.
Definition POINTS_GUESS_BASE : Z := 500.
Definition POINTS_GUESS_DECAY : Z := 100.

(** ** String primitives: [String.prototype.trim] and [toLowerCase] *)

Module JsString.

Definition code (c : ascii) : N := N_of_ascii c.

(** WhiteSpace and LineTerminator code points below 256:
    TAB, LF, VT, FF, CR, SP and NBSP. *)
Definition isWhiteSpace (c : ascii) : bool :=
  let n := code c in
  ((9 <=? n) && (n <=? 13) || (n =? 32) || (n =? 160))%N.

(** Latin-1 upper-case letters: A-Z, and U+00C0..U+00DE except U+00D7. *)
Definition isUpper (c : ascii) : bool :=
  let n := code c in
  ((65 <=? n) && (n <=? 90)
   || (192 <=? n) && (n <=? 222) && negb (n =? 215))%N.

Definition lowerChar (c : ascii) : ascii :=
  if isUpper c then ascii_of_N (code c + 32) else c.

Fixpoint toLowerCase (s : string) : string :=
  match s with
  | EmptyString => EmptyString
  | String c s' => String (lowerChar c) (toLowerCase s')
  end.

Fixpoint trimStart (s : string) : string :=
  match s with
  | EmptyString => EmptyString
  | String c s' => if isWhiteSpace c then trimStart s' else s
  end.

Fixpoint trimEnd (s : string) : string :=
  match s with
  | EmptyString => EmptyString
  | String c s' =>
      match trimEnd s' with
      | EmptyString => if isWhiteSpace c then EmptyString
                       else String c EmptyString
      | t => String c t
      end
  end.

Definition trim (s : string) : string := trimEnd (trimStart s).

Fixpoint allWhiteSpace (s : string) : bool :=
  match s with
  | EmptyString => true
  | String c s' => isWhiteSpace c && allWhiteSpace s'
  end.

(** [s.startsWith(p)] *)
Fixpoint startsWith (p s : string) : bool :=
  match p, s with
  | EmptyString, _ => true
  | String a p', String b s' => bool_decide (a = b) && startsWith p' s'
  | String _ _, EmptyString => false
  end.

(** [/[a-zA-Z0-9]/.test(char)] *)
Definition isAlnum (c : ascii) : bool :=
  let n := code c in
  ((97 <=? n) && (n <=? 122) || (65 <=? n) && (n <=? 90)
   || (48 <=? n) && (n <=? 57))%N.

End JsString.

(** ** gameState.js *)

Abbreviation GameStates := (gmap string GameState).

Definition initialState : GameState :=
  {| phase := ROOM_LOBBY; currentRound := 1; totalRounds := TOTAL_ROUNDS;
     currentPlayerIndex := 0; currentWord := None; wordOptions := [];
     timeLeft := 0; messages := []; canvasData := None; usedWords := [];
     timerInterval := None |}.

Definition initializeGameState (gs : GameStates) (roomCode : string)
  : GameStates * GameState :=
  (<[roomCode := initialState]> gs, initialState).

Definition getGameState (gs : GameStates) (roomCode : string)
  : option GameState := gs !! roomCode.

(** [checkGuess]: [false] without a state or a current word, else the
    comparison of the normalised strings. *)
Definition checkGuess (gs : GameStates) (roomCode guess : string) : bool :=
  match gs !! roomCode with
  | None => false
  | Some state =>
      match currentWord state with
      | None => false
      | Some w =>
          let normalizedGuess := JsString.toLowerCase (JsString.trim guess) in
          let normalizedTarget := JsString.toLowerCase (word w) in
          bool_decide (normalizedGuess = normalizedTarget)
      end
  end.

Definition startGame_state (s : GameState) : GameState :=
  {| phase := ROUND_START; currentRound := 1; totalRounds := totalRounds s;
     currentPlayerIndex := 0; currentWord := currentWord s;
     wordOptions := wordOptions s; timeLeft := timeLeft s; messages := [];
     canvasData := None; usedWords := []; timerInterval := timerInterval s |}.

Definition resetScore (p : Player) : Player :=
  {| pl_id := pl_id p; pl_name := pl_name p; score := 0;
     hasGuessedCorrectly := false |}.

(** [startGame]: the state is updated and every player object is reset in
    place; without a state nothing is touched. *)
Definition startGame (gs : GameStates) (roomCode : string) (ps : list Player)
  : GameStates * list Player * option GameState :=
  match gs !! roomCode with
  | None => (gs, ps, None)
  | Some s => let s' := startGame_state s in
              (<[roomCode := s']> gs, resetScore <$> ps, Some s')
  end.

Definition startRound_state (roundNum : Z) (s : GameState) : GameState :=
  {| phase := ROUND_START; currentRound := roundNum;
     totalRounds := totalRounds s;
     currentPlayerIndex := currentPlayerIndex s;
     currentWord := currentWord s; wordOptions := wordOptions s;
     timeLeft := timeLeft s; messages := []; canvasData := canvasData s;
     usedWords := usedWords s; timerInterval := timerInterval s |}.

(** [startTurn], with [words] the result of the awaited
    [generateWordOptions]: the phase passes through TURN_START and is
    WORD_SELECTION when the call completes. *)
Definition startTurn_state (playerIndex : nat) (words : list WordOption)
    (s : GameState) : GameState :=
  {| phase := WORD_SELECTION; currentRound := currentRound s;
     totalRounds := totalRounds s; currentPlayerIndex := playerIndex;
     currentWord := None; wordOptions := words; timeLeft := timeLeft s;
     messages := []; canvasData := None;
     usedWords := usedWords s ++ (word <$> words);
     timerInterval := timerInterval s |}.

Definition selectWord_state (w : WordOption) (s : GameState) : GameState :=
  {| phase := DRAWING; currentRound := currentRound s;
     totalRounds := totalRounds s;
     currentPlayerIndex := currentPlayerIndex s; currentWord := Some w;
     wordOptions := []; timeLeft := TURN_DURATION_SECONDS;
     messages := messages s; canvasData := canvasData s;
     usedWords := usedWords s; timerInterval := timerInterval s |}.

Definition updateCanvas_state (data : option string) (s : GameState)
  : GameState :=
  {| phase := phase s; currentRound := currentRound s;
     totalRounds := totalRounds s;
     currentPlayerIndex := currentPlayerIndex s;
     currentWord := currentWord s; wordOptions := wordOptions s;
     timeLeft := timeLeft s; messages := messages s; canvasData := data;
     usedWords := usedWords s; timerInterval := timerInterval s |}.

Definition addMessage_state (m : ChatMessage) (s : GameState) : GameState :=
  {| phase := phase s; currentRound := currentRound s;
     totalRounds := totalRounds s;
     currentPlayerIndex := currentPlayerIndex s;
     currentWord := currentWord s; wordOptions := wordOptions s;
     timeLeft := timeLeft s; messages := messages s ++ [m];
     canvasData := canvasData s; usedWords := usedWords s;
     timerInterval := timerInterval s |}.

(** [endTurn]: the interval handle is cleared and the phase is set; the
    current phase is not consulted. *)
Definition endTurn_state (s : GameState) : GameState :=
  {| phase := TURN_END; currentRound := currentRound s;
     totalRounds := totalRounds s;
     currentPlayerIndex := currentPlayerIndex s;
     currentWord := currentWord s; wordOptions := wordOptions s;
     timeLeft := timeLeft s; messages := messages s;
     canvasData := canvasData s; usedWords := usedWords s;
     timerInterval := None |}.

Definition endRound_state (s : GameState) : GameState :=
  {| phase := if currentRound s >=? totalRounds s then GAME_OVER
              else ROUND_END;
     currentRound := currentRound s; totalRounds := totalRounds s;
     currentPlayerIndex := currentPlayerIndex s;
     currentWord := currentWord s; wordOptions := wordOptions s;
     timeLeft := timeLeft s; messages := messages s;
     canvasData := canvasData s; usedWords := usedWords s;
     timerInterval := timerInterval s |}.

Definition decrementTimer_state (s : GameState) : GameState :=
  {| phase := phase s; currentRound := currentRound s;
     totalRounds := totalRounds s;
     currentPlayerIndex := currentPlayerIndex s;
     currentWord := currentWord s; wordOptions := wordOptions s;
     timeLeft := Z.max 0 (timeLeft s - 1); messages := messages s;
     canvasData := canvasData s; usedWords := usedWords s;
     timerInterval := timerInterval s |}.

(** The common shape [const state = gameStates.get(roomCode);
    if (!state) return null; ...mutate state...; return state]. *)
Definition onState (f : GameState → GameState) (gs : GameStates)
    (roomCode : string) : GameStates * option GameState :=
  match gs !! roomCode with
  | None => (gs, None)
  | Some s => (<[roomCode := f s]> gs, Some (f s))
  end.

Definition deleteGameState (gs : GameStates) (roomCode : string)
  : GameStates * bool :=
  (delete roomCode gs, bool_decide (is_Some (gs !! roomCode))).

Definition startRound (gs : GameStates) (roomCode : string) (roundNum : Z) :=
  onState (startRound_state roundNum) gs roomCode.
Definition startTurn (gs : GameStates) (roomCode : string)
    (playerIndex : nat) (words : list WordOption) :=
  onState (startTurn_state playerIndex words) gs roomCode.
Definition selectWord (gs : GameStates) (roomCode : string) (w : WordOption) :=
  onState (selectWord_state w) gs roomCode.
Definition updateCanvas (gs : GameStates) (roomCode : string)
    (data : option string) :=
  onState (updateCanvas_state data) gs roomCode.
Definition addMessage (gs : GameStates) (roomCode : string) (m : ChatMessage) :=
  onState (addMessage_state m) gs roomCode.
Definition endTurn (gs : GameStates) (roomCode : string) :=
  onState endTurn_state gs roomCode.
Definition endRound (gs : GameStates) (roomCode : string) :=
  onState endRound_state gs roomCode.

(** [decrementTimer] returns the new [timeLeft], or null. *)
Definition decrementTimer (gs : GameStates) (roomCode : string)
  : GameStates * option Z :=
  let '(gs', r) := onState decrementTimer_state gs roomCode in
  (gs', timeLeft <$> r).

Definition clearGuess (p : Player) : Player :=
  {| pl_id := pl_id p; pl_name := pl_name p; score := score p;
     hasGuessedCorrectly := false |}.

Definition resetPlayersForTurn (ps : list Player) : list Player :=
  clearGuess <$> ps.

(** *** handleCorrectGuess *)

(** The value returned on success.  [gr_player] is the position of the
    returned player object in the [players] array. *)
Record GuessResult := mkResult {
  gr_points : Z;
  gr_allGuessed : bool;
  gr_player : nat
}.

(** [Array.prototype.filter] with a callback that may throw: the first
    throw aborts the traversal. *)
Fixpoint filterE {A : Type} (f : A → outcome bool) (l : list A)
  : outcome (list A) :=
  match l with
  | [] => Returned []
  | x :: l' =>
      match f x with
      | Threw => Threw
      | Returned b =>
          match filterE f l' with
          | Threw => Threw
          | Returned r => Returned (if b then x :: r else r)
          end
      end
  end.

(** [p.id !== players[state.currentPlayerIndex].id]: reading [.id] of
    [undefined] throws when the index is outside the array. *)
Definition isNotDrawer (state : GameState) (ps : list Player) (p : Player)
  : outcome bool :=
  match ps !! currentPlayerIndex state with
  | None => Threw
  | Some d => Returned (bool_decide (pl_id p ≠ pl_id d))
  end.

(** [p.hasGuessedCorrectly && p.id !== players[...].id]: the right operand
    is evaluated only when the flag is set. *)
Definition isRankedGuesser (state : GameState) (ps : list Player) (p : Player)
  : outcome bool :=
  if hasGuessedCorrectly p then isNotDrawer state ps p else Returned false.

Definition awardPoints (points : Z) (p : Player) : Player :=
  {| pl_id := pl_id p; pl_name := pl_name p; score := score p + points;
     hasGuessedCorrectly := true |}.

Definition addScore (points : Z) (p : Player) : Player :=
  {| pl_id := pl_id p; pl_name := pl_name p; score := score p + points;
     hasGuessedCorrectly := hasGuessedCorrectly p |}.

Definition guessPoints (guessRank : nat) : Z :=
  Z.max (POINTS_GUESS_BASE - Z.of_nat guessRank * POINTS_GUESS_DECAY) 200.

(** The result pairs the [players] array as the call leaves it (the objects
    are mutated in place, also when the call throws later on) with the
    returned value. *)
Definition handleCorrectGuess (gs : GameStates) (roomCode pid : string)
    (ps : list Player) : list Player * outcome (option GuessResult) :=
  match gs !! roomCode with
  | None => (ps, Returned None)
  | Some state =>
      match list_find (λ p, pl_id p = pid) ps with
      | None => (ps, Returned None)
      | Some (i, player) =>
          if hasGuessedCorrectly player then (ps, Returned None) else
          match filterE (isRankedGuesser state ps) ps with
          | Threw => (ps, Threw)
          | Returned ranked =>
              let points := guessPoints (length ranked) in
              let ps1 := <[i := awardPoints points player]> ps in
              match filterE (isNotDrawer state ps1) ps1 with
              | Threw => (ps1, Threw)
              | Returned guessers =>
                  let allGuessed := forallb hasGuessedCorrectly guessers in
                  let ps2 :=
                    if allGuessed then
                      match ps1 !! currentPlayerIndex state with
                      | Some drawer =>
                          <[currentPlayerIndex state :=
                              addScore POINTS_DRAWER_ALL_GUESSED drawer]> ps1
                      | None => ps1
                      end
                    else ps1 in
                  (ps2, Returned (Some (mkResult points allGuessed i)))
              end
          end
      end
  end.

(** ** rooms.js *)

Abbreviation Rooms := (gmap string Room).

(** [createRoom]; the code drawn by [generateRoomCode] is an argument. *)
Definition createRoom (rooms : Rooms) (roomCode roomName : string)
    (isPrivate : bool) (password hostId : option string) : Rooms * Room :=
  let room := {| room_id := roomCode; room_name := roomName;
                 isPrivate := isPrivate; password := password;
                 hostId := hostId; players := []; maxPlayers := 8;
                 status := WAITING |} in
  (<[roomCode := room]> rooms, room).

Definition getRoom (rooms : Rooms) (roomCode : string) : option Room :=
  rooms !! roomCode.

Definition setPlayers (ps : list Player) (r : Room) : Room :=
  {| room_id := room_id r; room_name := room_name r;
     isPrivate := isPrivate r; password := password r; hostId := hostId r;
     players := ps; maxPlayers := maxPlayers r; status := status r |}.

Definition setHost (h : option string) (r : Room) : Room :=
  {| room_id := room_id r; room_name := room_name r;
     isPrivate := isPrivate r; password := password r; hostId := h;
     players := players r; maxPlayers := maxPlayers r; status := status r |}.

Definition setStatus (st : RoomStatus) (r : Room) : Room :=
  {| room_id := room_id r; room_name := room_name r;
     isPrivate := isPrivate r; password := password r; hostId := hostId r;
     players := players r; maxPlayers := maxPlayers r; status := st |}.

(** [{ success: false, error }] or [{ success: true, room }]. *)
Inductive AddResult :=
  | AddError (error : string)
  | AddOk (room : Room).

Definition addPlayerToRoom (rooms : Rooms) (roomCode : string)
    (player : Player) : Rooms * AddResult :=
  match rooms !! roomCode with
  | None => (rooms, AddError "Room not found")
  | Some room =>
      if bool_decide (maxPlayers room ≤ length (players room))%nat
      then (rooms, AddError "Room is full")
      else if bool_decide (status room = PLAYING)
      then (rooms, AddError "Game already in progress")
      else match list_find (λ p, pl_id p = pl_id player) (players room) with
           | Some _ => (rooms, AddOk room)
           | None =>
               let room1 := setPlayers (players room ++ [player]) room in
               let room2 :=
                 if bool_decide (length (players room1) = 1%nat)
                 then setHost (Some (pl_id player)) room1 else room1 in
               (<[roomCode := room2]> rooms, AddOk room2)
           end
  end.

(** [{ success: false, error }], [{ success: true, room: null, deleted: true }]
    or [{ success: true, room, deleted: false }]. *)
Inductive RemoveResult :=
  | RemoveError (error : string)
  | RemoveDeleted
  | RemoveKept (room : Room).

Definition deleted (r : RemoveResult) : bool :=
  match r with RemoveDeleted => true | _ => false end.

Definition removePlayerFromRoom (rooms : Rooms) (roomCode pid : string)
  : Rooms * RemoveResult :=
  match rooms !! roomCode with
  | None => (rooms, RemoveError "Room not found")
  | Some room =>
      let room1 := setPlayers (filter (λ p, pl_id p ≠ pid) (players room)) room in
      if bool_decide (length (players room1) = 0%nat)
      then (delete roomCode rooms, RemoveDeleted)
      else
        let room2 :=
          if bool_decide (hostId room1 = Some pid)
          then setHost (pl_id <$> players room1 !! 0%nat) room1
          else room1 in
        (<[roomCode := room2]> rooms, RemoveKept room2)
  end.

Definition updateRoomStatus (rooms : Rooms) (roomCode : string)
    (st : RoomStatus) : Rooms * option Room :=
  match rooms !! roomCode with
  | None => (rooms, None)
  | Some room => (<[roomCode := setStatus st room]> rooms,
                  Some (setStatus st room))
  end.

(** ** Server entry point: timers and socket handlers *)

(** The callbacks handed to [setTimeout]. *)
Inductive TimerCallback :=
  | CallHandleTurnEnd (roomCode : string)
  | AdvanceAfterTurnEnd (roomCode : string).

(** The two stores and the pending timeouts (delay in milliseconds,
    callback), in the order in which they were scheduled. *)
Record Server := mkServer {
  sv_rooms : Rooms;
  sv_gameStates : GameStates;
  sv_timeouts : list (Z * TimerCallback)
}.

(** [`Time's up! The word was: ${gameState.currentWord?.word}`] *)
Definition revealText (w : option WordOption) : string :=
  "Time's up! The word was: "
  +:+ match w with Some w => word w | None => "undefined" end.

Definition revealMessage (w : option WordOption) : ChatMessage :=
  {| playerId := "system"; playerName := "Host"; text := revealText w;
     isSystem := true; isCorrectGuess := None |}.

Definition handleTurnEnd (sv : Server) (roomCode : string) : Server :=
  match sv_rooms sv !! roomCode, sv_gameStates sv !! roomCode with
  | Some room, Some gameState =>
      let gs1 := (endTurn (sv_gameStates sv) roomCode).1 in
      let gs2 :=
        (addMessage gs1 roomCode
           (revealMessage (gs1 !! roomCode ≫= currentWord))).1 in
      {| sv_rooms := sv_rooms sv; sv_gameStates := gs2;
         sv_timeouts := sv_timeouts sv
                        ++ [(6000, AdvanceAfterTurnEnd roomCode)] |}
  | _, _ => sv
  end.

(** The body of the interval armed by [startTurnTimer], run once a second. *)
Definition timerTick (sv : Server) (roomCode : string) : Server :=
  let '(gs1, remaining) := decrementTimer (sv_gameStates sv) roomCode in
  let sv1 := {| sv_rooms := sv_rooms sv; sv_gameStates := gs1;
                sv_timeouts := sv_timeouts sv |} in
  match remaining with
  | Some t => if t <=? 0 then handleTurnEnd sv1 roomCode else sv1
  | None => sv1
  end.

(** The object passed to the acknowledgement callback of [submit-guess]. *)
Record GuessReply := mkReply {
  success : bool;
  isCorrect : option bool;
  reply_points : option Z
}.

Definition chatMessage (pid name txt : string) (correct : bool)
  : ChatMessage :=
  {| playerId := pid; playerName := name; text := txt; isSystem := false;
     isCorrectGuess := Some correct |}.

Definition postChat (sv : Server) (roomCode : string) (m : ChatMessage)
  : Server :=
  {| sv_rooms := sv_rooms sv;
     sv_gameStates := (addMessage (sv_gameStates sv) roomCode m).1;
     sv_timeouts := sv_timeouts sv |}.

Definition storePlayers (sv : Server) (roomCode : string) (room : Room)
    (ps : list Player) : Server :=
  {| sv_rooms := <[roomCode := setPlayers ps room]> (sv_rooms sv);
     sv_gameStates := sv_gameStates sv; sv_timeouts := sv_timeouts sv |}.

Definition schedule (sv : Server) (delay : Z) (cb : TimerCallback) : Server :=
  {| sv_rooms := sv_rooms sv; sv_gameStates := sv_gameStates sv;
     sv_timeouts := sv_timeouts sv ++ [(delay, cb)] |}.

(** The [submit-guess] handler of a socket mapped to [roomCode] and [pid]. *)
Definition submitGuess (sv : Server) (roomCode pid txt : string)
  : Server * outcome GuessReply :=
  match sv_rooms sv !! roomCode, sv_gameStates sv !! roomCode with
  | Some room, Some gameState =>
      match list_find (λ p, pl_id p = pid) (players room) with
      | None => (sv, Returned (mkReply false None None))
      | Some (_, player) =>
          let isDrawer :=
            match players room !! currentPlayerIndex gameState with
            | Some currentDrawer => bool_decide (pl_id currentDrawer = pid)
            | None => false
            end in
          let wrong :=
            (postChat sv roomCode (chatMessage pid (pl_name player) txt false),
             Returned (mkReply true (Some false) None)) in
          if hasGuessedCorrectly player || isDrawer then wrong
          else if checkGuess (sv_gameStates sv) roomCode txt
                  && bool_decide (phase gameState = DRAWING)
          then
            match handleCorrectGuess (sv_gameStates sv) roomCode pid
                    (players room) with
            | (ps', Threw) => (storePlayers sv roomCode room ps', Threw)
            | (ps', Returned None) => wrong
            | (ps', Returned (Some result)) =>
                let sv1 := storePlayers sv roomCode room ps' in
                let sv2 :=
                  postChat sv1 roomCode
                    (chatMessage pid (pl_name player)
                       ("Guessed the word! (+" +:+ pretty (gr_points result)
                        +:+ ")") true) in
                let sv3 :=
                  if gr_allGuessed result
                  then schedule sv2 2000 (CallHandleTurnEnd roomCode)
                  else sv2 in
                (sv3, Returned (mkReply true (Some true)
                                  (Some (gr_points result))))
            end
          else wrong
      end
  | _, _ => (sv, Returned (mkReply false None None))
  end.

(** The [leave-room] handler (and, with the same body, [disconnect]) of a
    socket mapped to [roomCode] and [pid]; both must be truthy. *)
Definition leaveRoom (sv : Server) (roomCode pid : string) : Server :=
  if bool_decide (roomCode ≠ "") && bool_decide (pid ≠ "") then
    let '(rooms', result) :=
      removePlayerFromRoom (sv_rooms sv) roomCode pid in
    if deleted result
    then {| sv_rooms := rooms';
            sv_gameStates := (deleteGameState (sv_gameStates sv) roomCode).1;
            sv_timeouts := sv_timeouts sv |}
    else {| sv_rooms := rooms'; sv_gameStates := sv_gameStates sv;
            sv_timeouts := sv_timeouts sv |}
  else sv.

(** ** The offline client (hooks/useGameLogic.ts) *)

Module Client.

(** The state updater of [endTurn]: a state already in TURN_END is
    returned as it is. *)
Definition endTurn (prev : GameState) : GameState :=
  if bool_decide (phase prev = TURN_END) then prev
  else addMessage_state (revealMessage (currentWord prev))
         {| phase := TURN_END; currentRound := currentRound prev;
            totalRounds := totalRounds prev;
            currentPlayerIndex := currentPlayerIndex prev;
            currentWord := currentWord prev;
            wordOptions := wordOptions prev; timeLeft := timeLeft prev;
            messages := messages prev; canvasData := canvasData prev;
            usedWords := usedWords prev;
            timerInterval := timerInterval prev |}.

End Client.

(** ** services/words.ts *)

Module Words.

Definition w (s : string) (c : Category) : WordOption := mkWord s c.

Definition EASY_WORDS : list WordOption :=
  [ w "Cat" THING; w "Dog" THING; w "Sun" THING;
    w "Moon" THING; w "Tree" THING; w "House" THING;
    w "Car" THING; w "Bird" THING; w "Fish" THING;
    w "Apple" THING; w "Run" ACTION; w "Jump" ACTION;
    w "Dance" ACTION; w "Sing" ACTION; w "Sleep" ACTION;
    w "Eat" ACTION; w "Drink" ACTION; w "Walk" ACTION;
    w "Swim" ACTION; w "Fly" ACTION; w "Park" PLACE;
    w "Beach" PLACE; w "School" PLACE; w "Store" PLACE;
    w "Kitchen" PLACE; w "Bedroom" PLACE; w "Garden" PLACE;
    w "Library" PLACE; w "Hospital" PLACE; w "Restaurant" PLACE ].

Definition MEDIUM_WORDS : list WordOption :=
  [ w "Airplane" THING; w "Computer" THING; w "Guitar" THING;
    w "Camera" THING; w "Bicycle" THING; w "Telescope" THING;
    w "Volcano" THING; w "Dinosaur" THING; w "Robot" THING;
    w "Submarine" THING; w "Climbing" ACTION; w "Skydiving" ACTION;
    w "Surfing" ACTION; w "Cooking" ACTION; w "Reading" ACTION;
    w "Painting" ACTION; w "Fishing" ACTION; w "Shopping" ACTION;
    w "Driving" ACTION; w "Swimming" ACTION; w "Mountain" PLACE;
    w "Ocean" PLACE; w "Desert" PLACE; w "Forest" PLACE;
    w "City" PLACE; w "Island" PLACE; w "Castle" PLACE;
    w "Museum" PLACE; w "Stadium" PLACE; w "Airport" PLACE ].

Definition HARD_WORDS : list WordOption :=
  [ w "Telescope" THING; w "Microscope" THING; w "Helicopter" THING;
    w "Submarine" THING; w "Skyscraper" THING; w "Lighthouse" THING;
    w "Windmill" THING; w "Waterfall" THING; w "Rainbow" THING;
    w "Thunderstorm" THING; w "Photography" ACTION; w "Meditation" ACTION;
    w "Exercising" ACTION; w "Gardening" ACTION; w "Exploring" ACTION;
    w "Inventing" ACTION; w "Discovering" ACTION; w "Celebrating" ACTION;
    w "Traveling" ACTION; w "Learning" ACTION; w "Pyramid" PLACE;
    w "Rainforest" PLACE; w "Waterfall" PLACE; w "Volcano" PLACE;
    w "Glacier" PLACE; w "Canyon" PLACE; w "Observatory" PLACE;
    w "Laboratory" PLACE; w "Observatory" PLACE; w "Planetarium" PLACE ].


(** [Math.floor(Math.random() * l.length)] applied to [l]: the draw [r]
    of the oracle selects position [r mod length l]. *)
Definition pick {A : Type} (l : list A) (r : nat) : option A :=
  l !! (r mod length l)%nat.

Definition wordPool (round : Z) : list WordOption :=
  if bool_decide (round = 1) then EASY_WORDS
  else if bool_decide (round = 2) then MEDIUM_WORDS
  else HARD_WORDS.

Definition ofCategory (c : Category) (l : list WordOption)
  : list WordOption :=
  filter (λ x, category x = c) l.

(** [if (ws.length > 0) selected.push(ws[random index])]; the state is
    the list selected so far and the rest of the oracle.  [None]: the
    oracle is used up. *)
Definition pushRandom (ws : list WordOption)
    (st : list WordOption * list nat)
  : option (list WordOption * list nat) :=
  let '(selected, rs) := st in
  if bool_decide (0 < length ws)%nat then
    match rs with
    | [] => None
    | r :: rs' => (λ x, (selected ++ [x], rs')) <$> pick ws r
    end
  else Some st.

(** The [while] loop that tops the selection up to three words; every
    iteration consumes one draw, and a draw that hits a word already
    selected changes nothing.  [None]: the oracle is used up before the
    loop condition fails. *)
Fixpoint fillUp (availableWords selected : list WordOption)
    (rs : list nat) : option (list WordOption) :=
  if bool_decide (length selected < 3)%nat
     && bool_decide (0 < length availableWords)%nat
  then
    match rs with
    | [] => None
    | r :: rs' =>
        match pick availableWords r with
        | None => None
        | Some randomWord =>
            match list_find (λ x, word x = word randomWord) selected with
            | Some _ => fillUp availableWords selected rs'
            | None => fillUp availableWords (selected ++ [randomWord]) rs'
            end
        end
    end
  else Some selected.

(** Everything up to and including [selected.slice(0, 3)]. *)
Definition selectWords (round : Z) (excludeWords : list string)
    (rs : list nat) : option (list WordOption) :=
  let availableWords :=
    filter (λ x, word x ∉ excludeWords) (wordPool round) in
  st1 ← pushRandom (ofCategory ACTION availableWords) ([], rs);
  st2 ← pushRandom (ofCategory THING availableWords) st1;
  st3 ← pushRandom (ofCategory PLACE availableWords) st2;
  take 3 <$> fillUp availableWords st3.1 st3.2.

(** [generateWordOptions]: the final [sort] with a random comparator
    returns the selected words in some order. *)
Definition generateWordOptions (round : Z) (excludeWords : list string)
    (rs : list nat) (options : list WordOption) : Prop :=
  ∃ selected, selectWords round excludeWords rs = Some selected
              ∧ options ≡ₚ selected.

End Words.

(** ** App.tsx: the word shown to the guessers *)

Definition maskChar (indicesToReveal : list nat) (i : nat) (char : ascii)
  : ascii :=
  if negb (JsString.isAlnum char) then char
  else if bool_decide (i ∈ indicesToReveal) then char
  else "_"%char.

Definition indicesToReveal (elapsed : Z) (len : nat) : list nat :=
  (if 30 <=? elapsed then [0%nat] else [])
  ++ (if (60 <=? elapsed) && bool_decide (4 ≤ len)%nat
      then [(len / 2)%nat] else []).

(** [getMaskedWord]; [gameState] is the client's copy of the state, null
    before the first snapshot arrives. *)
Definition getMaskedWord (gameState : option GameState) (wd : string)
  : string :=
  match gameState, wd with
  | None, _ => ""
  | _, EmptyString => ""
  | Some g, _ =>
      let elapsed := TURN_DURATION_SECONDS - timeLeft g in
      let len := String.length wd in
      let reveal := indicesToReveal elapsed len in
      String.concat " "
        (imap (λ i char, String (maskChar reveal i char) EmptyString)
           (list_ascii_of_string wd))
  end.

(** ** Reachable stores of game states

    The store starts empty and changes through the functions of
    gameState.js that have a call site, and through the one assignment
    that the server makes to a state itself:
    [gameState.timerInterval = setInterval(...)] in [startTurnTimer].
    [updateGameState] is exported and imported by the server but never
    called, and [getGameState], [checkGuess] and [handleCorrectGuess]
    leave the store as it is. *)

(** The assignment of [startTurnTimer]: the handle of the new interval is
    stored in the state. *)
Definition armTimer_state (handle : nat) (s : GameState) : GameState :=
  {| phase := phase s; currentRound := currentRound s;
     totalRounds := totalRounds s;
     currentPlayerIndex := currentPlayerIndex s;
     currentWord := currentWord s; wordOptions := wordOptions s;
     timeLeft := timeLeft s; messages := messages s;
     canvasData := canvasData s; usedWords := usedWords s;
     timerInterval := Some handle |}.

(** [armTimer]: that assignment on the state of [roomCode], if there is
    one. *)
Definition armTimer (gs : GameStates) (roomCode : string) (handle : nat) :=
  onState (armTimer_state handle) gs roomCode.

Inductive gs_step : GameStates → GameStates → Prop :=
  | step_initialize gs c : gs_step gs (initializeGameState gs c).1
  | step_delete gs c : gs_step gs (deleteGameState gs c).1
  | step_startGame gs c ps : gs_step gs (startGame gs c ps).1.1
  | step_startRound gs c n : gs_step gs (startRound gs c n).1
  | step_startTurn gs c i ws : gs_step gs (startTurn gs c i ws).1
  | step_selectWord gs c w : gs_step gs (selectWord gs c w).1
  | step_updateCanvas gs c d : gs_step gs (updateCanvas gs c d).1
  | step_addMessage gs c m : gs_step gs (addMessage gs c m).1
  | step_endTurn gs c : gs_step gs (endTurn gs c).1
  | step_endRound gs c : gs_step gs (endRound gs c).1
  | step_decrementTimer gs c : gs_step gs (decrementTimer gs c).1
  | step_armTimer gs c h : gs_step gs (armTimer gs c h).1.

Inductive reachable : GameStates → Prop :=
  | reachable_empty : reachable ∅
  | reachable_step gs gs' : reachable gs → gs_step gs gs' → reachable gs'.

(** Number of reveal messages in a chat log. *)
Definition revealCount (ms : list ChatMessage) : nat :=
  length (filter (λ m, isSystem m = true
                       ∧ JsString.startsWith "Time's up! The word was: "
                           (text m) = true) ms).

(** The rank of a guess as the specification words it: the players other
    than the drawer whose flag is already set. *)
Definition guessRank (drawer : Player) (ps : list Player) : nat :=
  length (filter (λ p, hasGuessedCorrectly p = true
                       ∧ pl_id p ≠ pl_id drawer) ps).

(** Every player other than the drawer has guessed. *)
Definition allGuessed (drawer : Player) (ps : list Player) : Prop :=
  ∀ p, p ∈ ps → pl_id p ≠ pl_id drawer → hasGuessedCorrectly p = true.

(** Position of the first alphanumeric character of a word. *)
Definition firstAlnum (wd : string) : option nat :=
  fst <$> list_find (λ c, JsString.isAlnum c = true)
            (list_ascii_of_string wd).

(** The invariant of the countdown. *)
Definition timeLeft_ok (st : GameState) : Prop :=
  0 ≤ timeLeft st ≤ TURN_DURATION_SECONDS.

(** ** Sample inputs *)

Definition catState : GameState :=
  selectWord_state (mkWord "Cat" THING) initialState.

Definition alice : Player := mkPlayer "p-alice" "Alice" 0 false.
Definition bob : Player := mkPlayer "p-bob" "Bob" 0 false.
Definition carol : Player := mkPlayer "p-carol" "Carol" 0 false.

Definition lobbyRoom (ps : list Player) (st : RoomStatus) : Room :=
  {| room_id := "ROOM01"; room_name := "Doodlers"; isPrivate := false;
     password := None; hostId := pl_id <$> ps !! 0%nat; players := ps;
     maxPlayers := 8; status := st |}.

Definition eightPlayers : list Player :=
  (λ n, mkPlayer ("p-" +:+ pretty n) "Guest" 0 false) <$> seq 0 8.



Definition drawingState (idx : nat) : GameState :=
  {| phase := DRAWING; currentRound := 1; totalRounds := TOTAL_ROUNDS;
     currentPlayerIndex := idx; currentWord := Some (mkWord "Cat" THING);
     wordOptions := []; timeLeft := 1; messages := []; canvasData := None;
     usedWords := ["Run"; "Cat"; "Park"]; timerInterval := Some 7%nat |}.


(** Alice draws "Cat" with one second left on the clock; Bob is the only
    guesser. *)
Definition raceServer : Server :=
  {| sv_rooms := {["ROOM01" := lobbyRoom [alice; bob] PLAYING]};
     sv_gameStates := {["ROOM01" := drawingState 0]};
     sv_timeouts := [] |}.

(** Bob guesses the word, ... *)
Definition raceGuessed : Server :=
  (submitGuess raceServer "ROOM01" "p-bob" " CAT").1.
(** ... the interval fires and takes the clock to zero, ... *)
Definition raceTimedOut : Server := timerTick raceGuessed "ROOM01".
(** ... and the timeout scheduled by the guess fires. *)
Definition raceEndedAgain : Server := handleTurnEnd raceTimedOut "ROOM01".

Definition messagesOf (sv : Server) (c : string) : list ChatMessage :=
  default [] (messages <$> sv_gameStates sv !! c).

(** The character displayed for position [i] of the word: the masked
    characters are joined by single spaces. *)
Definition shownAt (masked : string) (i : nat) : option ascii :=
  String.get (2 * i) masked.

(** A client state [elapsed] seconds into the turn. *)
Definition clientStateAt (elapsed : Z) : GameState :=
  {| phase := DRAWING; currentRound := 1; totalRounds := TOTAL_ROUNDS;
     currentPlayerIndex := 0; currentWord := Some (mkWord "(ok)" THING);
     wordOptions := []; timeLeft := TURN_DURATION_SECONDS - elapsed;
     messages := []; canvasData := None; usedWords := [];
     timerInterval := None |}.

(** ** rooms.js: listing, passwords, deletion *)

(** An entry of the public listing; the password is not part of it. *)
Record RoomInfo := mkInfo {
  info_id : string;
  info_name : string;
  info_isPrivate : bool;
  info_playerCount : nat;
  info_maxPlayers : nat;
  info_status : RoomStatus
}.

Definition roomInfo (r : Room) : RoomInfo :=
  {| info_id := room_id r; info_name := room_name r;
     info_isPrivate := isPrivate r; info_playerCount := length (players r);
     info_maxPlayers := maxPlayers r; info_status := status r |}.

(** [getPublicRooms].  The [Map] is traversed in insertion order, which the
    finite map does not record: only membership in the result is
    meaningful. *)
Definition getPublicRooms (rooms : Rooms) : list RoomInfo :=
  roomInfo <$> filter (λ r, isPrivate r = false) (map_to_list rooms).*2.

(** Truthiness of a value that is a string, null or undefined. *)
Definition truthy (s : option string) : bool :=
  match s with
  | Some s => bool_decide (s ≠ "")
  | None => false
  end.

(** [{ valid, error }]. *)
Record PasswordCheck := mkCheck {
  valid : bool;
  check_error : option string
}.

(** [verifyRoomPassword]; the attempt may be absent. *)
Definition verifyRoomPassword (rooms : Rooms) (roomCode : string)
    (attempt : option string) : PasswordCheck :=
  match rooms !! roomCode with
  | None => mkCheck false (Some "Room not found")
  | Some room =>
      if negb (isPrivate room) || negb (truthy (password room))
      then mkCheck true None
      else mkCheck (bool_decide (password room = attempt)) None
  end.

Definition deleteRoom (rooms : Rooms) (roomCode : string) : Rooms * bool :=
  (delete roomCode rooms, bool_decide (is_Some (rooms !! roomCode))).

(** ** Server entry point: the remaining handlers and callbacks *)

(** The timeouts whose callback is not one of [TimerCallback] are
    returned by the function that schedules them:
    [() => handleStartRound(roomCode, n)], [() => handleNextTurn(roomCode, i)]
    and the closure of [handleRoundEnd], which starts the round after the
    captured state's current one. *)
Inductive LaterCall :=
  | CallHandleStartRound (roomCode : string) (roundNum : Z)
  | CallHandleNextTurn (roomCode : string) (playerIndex : nat)
  | CallNextRound (roomCode : string).

(** [{ success: true }] or [{ success: false, error }] ([error] may be
    absent). *)
Inductive Ack :=
  | AckOk
  | AckError (error : option string).

Definition systemMessage (txt : string) : ChatMessage :=
  {| playerId := "system"; playerName := "Host"; text := txt;
     isSystem := true; isCorrectGuess := None |}.

(** [startTurnTimer]: an interval that is still armed is cleared and the
    handle of the new one, an argument here, is stored. *)
Definition startTurnTimer (sv : Server) (roomCode : string) (handle : nat)
  : Server :=
  {| sv_rooms := sv_rooms sv;
     sv_gameStates := (armTimer (sv_gameStates sv) roomCode handle).1;
     sv_timeouts := sv_timeouts sv |}.

(** [handleRoundEnd] *)
Definition handleRoundEnd (sv : Server) (roomCode : string)
  : Server * list (Z * LaterCall) :=
  match sv_gameStates sv !! roomCode with
  | None => (sv, [])
  | Some _ =>
      let gs1 := (endRound (sv_gameStates sv) roomCode).1 in
      let sv1 := {| sv_rooms := sv_rooms sv; sv_gameStates := gs1;
                    sv_timeouts := sv_timeouts sv |} in
      if bool_decide (phase <$> gs1 !! roomCode = Some GAME_OVER)
      then (sv1, [])
      else (sv1, [(8000, CallNextRound roomCode)])
  end.

(** [handleStartRound] *)
Definition handleStartRound (sv : Server) (roomCode : string) (roundNum : Z)
  : Server * list (Z * LaterCall) :=
  match sv_rooms sv !! roomCode with
  | None => (sv, [])
  | Some _ =>
      let gs1 := (startRound (sv_gameStates sv) roomCode roundNum).1 in
      let gs2 :=
        (addMessage gs1 roomCode
           (systemMessage ("Round " +:+ pretty roundNum +:+ " begins!"))).1 in
      ({| sv_rooms := sv_rooms sv; sv_gameStates := gs2;
          sv_timeouts := sv_timeouts sv |},
       [(3000, CallHandleNextTurn roomCode 0)])
  end.

(** [handleNextTurn]; [words] is what the awaited [generateWordOptions]
    (called with the state's round and used words) resolves to. *)
Definition handleNextTurn (sv : Server) (roomCode : string)
    (playerIndex : nat) (words : list WordOption)
  : Server * list (Z * LaterCall) :=
  match sv_rooms sv !! roomCode, sv_gameStates sv !! roomCode with
  | Some room, Some _ =>
      if bool_decide (length (players room) ≤ playerIndex)%nat
      then handleRoundEnd sv roomCode
      else
        ({| sv_rooms := <[roomCode :=
                            setPlayers (resetPlayersForTurn (players room))
                              room]> (sv_rooms sv);
            sv_gameStates :=
              (startTurn (sv_gameStates sv) roomCode playerIndex words).1;
            sv_timeouts := sv_timeouts sv |}, [])
  | _, _ => (sv, [])
  end.

(** The closure scheduled by [handleTurnEnd]; [gameState] and [room] are
    the objects it captured, read when it fires. *)
Definition advanceAfterTurnEnd (sv : Server) (roomCode : string)
    (gameState : GameState) (room : Room) (words : list WordOption)
  : Server * list (Z * LaterCall) :=
  let nextIdx := S (currentPlayerIndex gameState) in
  if bool_decide (length (players room) ≤ nextIdx)%nat
  then handleRoundEnd sv roomCode
  else handleNextTurn sv roomCode nextIdx words.

(** The closure scheduled by [handleRoundEnd]; [gameState] is the object
    it captured, read when it fires. *)
Definition nextRound (sv : Server) (roomCode : string)
    (gameState : GameState) : Server * list (Z * LaterCall) :=
  handleStartRound sv roomCode (currentRound gameState + 1).

(** The socket handlers, named after their events.  Each is the handler
    of a socket that [socketToRoom] and [socketToPlayer] map to
    [roomCode] and [pid]. *)
Module On.

(** [create-room]; the code drawn by [generateRoomCode] is an argument. *)
Definition createRoom (sv : Server) (roomCode roomName : string)
    (isPrivate : bool) (password : option string) : Server * Room :=
  let '(rooms', room) :=
    createRoom (sv_rooms sv) roomCode roomName isPrivate password None in
  ({| sv_rooms := rooms';
      sv_gameStates :=
        (initializeGameState (sv_gameStates sv) (room_id room)).1;
      sv_timeouts := sv_timeouts sv |}, room).

(** [join-room] *)
Definition joinRoom (sv : Server) (roomCode : string)
    (attempt : option string) (player : Player) : Server * AddResult :=
  match sv_rooms sv !! roomCode with
  | None => (sv, AddError "Room not found")
  | Some room =>
      if isPrivate room && truthy (password room)
         && negb (valid (verifyRoomPassword (sv_rooms sv) roomCode attempt))
      then (sv, AddError "Incorrect password")
      else
        match addPlayerToRoom (sv_rooms sv) roomCode player with
        | (_, AddError e) => (sv, AddError e)
        | (rooms', AddOk room') =>
            let gs' :=
              match sv_gameStates sv !! roomCode with
              | Some _ => sv_gameStates sv
              | None => (initializeGameState (sv_gameStates sv) roomCode).1
              end in
            ({| sv_rooms := rooms'; sv_gameStates := gs';
                sv_timeouts := sv_timeouts sv |}, AddOk room')
        end
  end.

(** [start-game]; the second component holds the timeout it schedules. *)
Definition startGame (sv : Server) (roomCode pid : string)
  : Server * list (Z * LaterCall) * Ack :=
  match sv_rooms sv !! roomCode with
  | None => (sv, [], AckError (Some "Room not found"))
  | Some room =>
      if bool_decide (hostId room ≠ Some pid)
      then (sv, [], AckError (Some "Only host can start the game"))
      else if bool_decide (length (players room) < 2)%nat
      then (sv, [], AckError (Some "Need at least 2 players"))
      else
        let room1 := setStatus PLAYING room in
        let '(gs', ps', _) :=
          startGame (sv_gameStates sv) roomCode (players room1) in
        ({| sv_rooms := <[roomCode := setPlayers ps' room1]> (sv_rooms sv);
            sv_gameStates := gs'; sv_timeouts := sv_timeouts sv |},
         [(1000, CallHandleStartRound roomCode 1)], AckOk)
  end.

(** [select-word]; [handle] is the handle of the interval that
    [startTurnTimer] arms. *)
Definition selectWord (sv : Server) (roomCode pid : string) (w : WordOption)
    (handle : nat) : Server * Ack :=
  match sv_rooms sv !! roomCode, sv_gameStates sv !! roomCode with
  | Some room, Some gameState =>
      match players room !! currentPlayerIndex gameState with
      | Some currentDrawer =>
          if bool_decide (pl_id currentDrawer ≠ pid)
          then (sv, AckError (Some "Not your turn"))
          else
            let gs1 := (selectWord (sv_gameStates sv) roomCode w).1 in
            let gs2 :=
              (addMessage gs1 roomCode
                 (systemMessage
                    (pl_name currentDrawer +:+ " selected a word!"))).1 in
            (startTurnTimer
               {| sv_rooms := sv_rooms sv; sv_gameStates := gs2;
                  sv_timeouts := sv_timeouts sv |} roomCode handle,
             AckOk)
      | None => (sv, AckError (Some "Not your turn"))
      end
  | _, _ => (sv, AckError (Some "Room not found"))
  end.

(** [draw-update]: no acknowledgement. *)
Definition drawUpdate (sv : Server) (roomCode pid : string)
    (data : option string) : Server :=
  match sv_rooms sv !! roomCode, sv_gameStates sv !! roomCode with
  | Some room, Some gameState =>
      match players room !! currentPlayerIndex gameState with
      | Some currentDrawer =>
          if bool_decide (pl_id currentDrawer ≠ pid) then sv
          else {| sv_rooms := sv_rooms sv;
                  sv_gameStates :=
                    (updateCanvas (sv_gameStates sv) roomCode data).1;
                  sv_timeouts := sv_timeouts sv |}
      | None => sv
      end
  | _, _ => sv
  end.

(** [chat-message]: no acknowledgement. *)
Definition chatMessage (sv : Server) (roomCode pid txt : string) : Server :=
  match sv_rooms sv !! roomCode with
  | None => sv
  | Some room =>
      match list_find (λ p, pl_id p = pid) (players room) with
      | None => sv
      | Some (_, player) =>
          postChat sv roomCode (chatMessage pid (pl_name player) txt false)
      end
  end.

(** [restart-game] *)
Definition restartGame (sv : Server) (roomCode : string) : Server * Ack :=
  match sv_rooms sv !! roomCode with
  | None => (sv, AckError None)
  | Some room =>
      let room1 := setStatus WAITING room in
      ({| sv_rooms :=
            <[roomCode := setPlayers (resetScore <$> players room1) room1]>
              (sv_rooms sv);
          sv_gameStates :=
            (initializeGameState (sv_gameStates sv) roomCode).1;
          sv_timeouts := sv_timeouts sv |}, AckOk)
  end.

End On.

(** ** Reachable servers

    The server starts with both stores empty and changes through its
    socket handlers and timer callbacks, each acting for one room code.  A
    joining player object, a room code, the offered words and the objects
    a closure captured are whatever they may be. *)

Definition emptyServer : Server :=
  {| sv_rooms := ∅; sv_gameStates := ∅; sv_timeouts := [] |}.

Inductive sv_step_at (c : string) : Server → Server → Prop :=
  | sv_createRoom sv n p pw : sv_step_at c sv (On.createRoom sv c n p pw).1
  | sv_joinRoom sv a pl : sv_step_at c sv (On.joinRoom sv c a pl).1
  | sv_leaveRoom sv pid : sv_step_at c sv (leaveRoom sv c pid)
  | sv_startGame sv pid : sv_step_at c sv (On.startGame sv c pid).1.1
  | sv_selectWord sv pid w h :
      sv_step_at c sv (On.selectWord sv c pid w h).1
  | sv_drawUpdate sv pid d : sv_step_at c sv (On.drawUpdate sv c pid d)
  | sv_submitGuess sv pid txt : sv_step_at c sv (submitGuess sv c pid txt).1
  | sv_chatMessage sv pid txt :
      sv_step_at c sv (On.chatMessage sv c pid txt)
  | sv_restartGame sv : sv_step_at c sv (On.restartGame sv c).1
  | sv_timerTick sv : sv_step_at c sv (timerTick sv c)
  | sv_handleTurnEnd sv : sv_step_at c sv (handleTurnEnd sv c)
  | sv_advanceAfterTurnEnd sv g r ws :
      sv_step_at c sv (advanceAfterTurnEnd sv c g r ws).1
  | sv_nextRound sv g : sv_step_at c sv (nextRound sv c g).1
  | sv_handleStartRound sv n : sv_step_at c sv (handleStartRound sv c n).1
  | sv_handleNextTurn sv i ws : sv_step_at c sv (handleNextTurn sv c i ws).1.

Definition sv_step (sv sv' : Server) : Prop := ∃ c, sv_step_at c sv sv'.

Inductive sv_reachable : Server → Prop :=
  | sv_reachable_empty : sv_reachable emptyServer
  | sv_reachable_step sv sv' :
      sv_reachable sv → sv_step sv sv' → sv_reachable sv'.

Definition memberIds (r : Room) : list string := pl_id <$> players r.

(** A well-formed room of the registry, stored under the code [c]. *)
Definition room_ok (c : string) (r : Room) : Prop :=
  room_id r = c
  ∧ maxPlayers r = 8%nat
  ∧ NoDup (memberIds r)
  ∧ (length (players r) ≤ maxPlayers r)%nat
  ∧ hostId r = head (memberIds r).

(** What is kept for the room code [c]: the room is registered exactly
    when it has a game state, it is well formed, and its countdown is in
    range. *)
Definition inv_at (c : string) (sv : Server) : Prop :=
  (is_Some (sv_rooms sv !! c) ↔ is_Some (sv_gameStates sv !! c))
  ∧ (∀ r, sv_rooms sv !! c = Some r → room_ok c r)
  ∧ (∀ st, sv_gameStates sv !! c = Some st → timeLeft_ok st).

Definition sv_inv (sv : Server) : Prop := ∀ c, inv_at c sv.

(** A change of a store that is confined to the entry of [c], neither
    adds nor removes that entry, and keeps it in good shape. *)
Definition gs_inplace (c : string) (gs gs' : GameStates) : Prop :=
  (∀ c', c' ≠ c → gs' !! c' = gs !! c')
  ∧ (is_Some (gs !! c) → is_Some (gs' !! c))
  ∧ (∀ st', gs' !! c = Some st' →
       ∃ st, gs !! c = Some st ∧ (timeLeft_ok st → timeLeft_ok st')).

Definition rooms_inplace (c : string) (rooms rooms' : Rooms) : Prop :=
  (∀ c', c' ≠ c → rooms' !! c' = rooms !! c')
  ∧ (is_Some (rooms !! c) → is_Some (rooms' !! c))
  ∧ (∀ r', rooms' !! c = Some r' →
       ∃ r, rooms !! c = Some r ∧ (room_ok c r → room_ok c r')).

(** The entries of the other rooms are the same in [sv] and [sv']. *)
Definition same_elsewhere (c : string) (sv sv' : Server) : Prop :=
  ∀ c', c' ≠ c →
    sv_rooms sv' !! c' = sv_rooms sv !! c'
    ∧ sv_gameStates sv' !! c' = sv_gameStates sv !! c'.


(** [n] interval ticks in a row. *)
Fixpoint ticks (n : nat) (sv : Server) (roomCode : string) : Server :=
  match n with
  | O => sv
  | S n' => ticks n' (timerTick sv roomCode) roomCode
  end.

Definition secretRoom : Room :=
  {| room_id := "ROOM02"; room_name := "Members"; isPrivate := true;
     password := Some "abc"; hostId := Some "p-alice"; players := [alice];
     maxPlayers := 8; status := WAITING |}.

Definition secretServer : Server :=
  {| sv_rooms := {["ROOM02" := secretRoom]};
     sv_gameStates := {["ROOM02" := initialState]}; sv_timeouts := [] |}.

(** [p'] is [p] with a score that is not lower and a guess flag that was
    not cleared. *)
Definition raised (p p' : Player) : Prop :=
  pl_id p' = pl_id p ∧ pl_name p' = pl_name p ∧ score p ≤ score p'
  ∧ (hasGuessedCorrectly p = true → hasGuessedCorrectly p' = true).

(** A room is created, Alice joins, Bob joins. *)
Definition lobbyServer : Server :=
  (On.joinRoom
     (On.joinRoom
        (On.createRoom emptyServer "ROOM01" "Doodlers" false None).1
        "ROOM01" None alice).1
     "ROOM01" None bob).1.

(** The state [s] with [t] seconds on the clock. *)
Definition setTimeLeft (t : Z) (s : GameState) : GameState :=
  {| phase := phase s; currentRound := currentRound s;
     totalRounds := totalRounds s;
     currentPlayerIndex := currentPlayerIndex s;
     currentWord := currentWord s; wordOptions := wordOptions s;
     timeLeft := t; messages := messages s; canvasData := canvasData s;
     usedWords := usedWords s; timerInterval := timerInterval s |}.

(** The server [sv] with the game state of [c] replaced by [st]. *)
Definition withState (sv : Server) (c : string) (st : GameState) : Server :=
  {| sv_rooms := sv_rooms sv;
     sv_gameStates := <[c := st]> (sv_gameStates sv);
     sv_timeouts := sv_timeouts sv |}.


(** ** Two games in which a member leaves during a turn *)

Definition dave : Player := mkPlayer "p-dave" "Dave" 0 false.

(** The closure scheduled by [handleTurnEnd] fires while the state and the
    room it captured are still the ones in the stores. *)
Definition advanceLive (sv : Server) (c : string) (words : list WordOption)
  : Server :=
  match sv_gameStates sv !! c, sv_rooms sv !! c with
  | Some g, Some r => (advanceAfterTurnEnd sv c g r words).1
  | _, _ => sv
  end.

(** Three words for the drawer to choose from: what [generateWordOptions]
    of words.ts yields in round 1 when every draw is 0 and the shuffle
    keeps the order. *)
Definition offer (used : list string) : list WordOption :=
  default [] (Words.selectWords 1 used [0; 0; 0]%nat).

(** Four players; Alice, the host, draws first and selects "Cat". *)
Definition partyDrawing : Server :=
  let sv1 := (On.joinRoom lobbyServer "ROOM01" None carol).1 in
  let sv2 := (On.joinRoom sv1 "ROOM01" None dave).1 in
  let sv3 := (On.startGame sv2 "ROOM01" "p-alice").1.1 in
  let sv4 := (handleStartRound sv3 "ROOM01" 1).1 in
  let sv5 := (handleNextTurn sv4 "ROOM01" 0 (offer [])).1 in
  (On.selectWord sv5 "ROOM01" "p-alice" (mkWord "Cat" THING) 1).1.

(** One second later the interval has fired once. *)
Definition partyTicked : Server := timerTick partyDrawing "ROOM01".
Definition partyTickedState : GameState :=
  {| phase := DRAWING; currentRound := 1; totalRounds := TOTAL_ROUNDS;
     currentPlayerIndex := 0; currentWord := Some (mkWord "Cat" THING);
     wordOptions := []; timeLeft := 79;
     messages := [systemMessage "Alice selected a word!"];
     canvasData := None; usedWords := ["Run"; "Cat"; "Park"];
     timerInterval := Some 1%nat |}.

(** Bob guesses the word, then Alice, who is drawing, disconnects, ... *)
Definition partyDrawerGone : Server :=
  leaveRoom (submitGuess partyDrawing "ROOM01" "p-bob" "cat").1
    "ROOM01" "p-alice".
(** ... then Carol guesses the word, ... *)
Definition partyCarolGuessed : Server :=
  (submitGuess partyDrawerGone "ROOM01" "p-carol" "cat").1.

(** Three players.  Alice draws "Cat", Bob and Carol guess it, the turn
    ends; Bob draws "Dog", Alice and Carol guess it, the turn ends; Carol,
    the last in the list, draws and selects "Sun". *)
Definition trioDrawing : Server :=
  let sv1 := (On.joinRoom lobbyServer "ROOM01" None carol).1 in
  let sv2 := (On.startGame sv1 "ROOM01" "p-alice").1.1 in
  let sv3 := (handleStartRound sv2 "ROOM01" 1).1 in
  let sv4 := (handleNextTurn sv3 "ROOM01" 0 (offer [])).1 in
  let sv5 := (On.selectWord sv4 "ROOM01" "p-alice" (mkWord "Cat" THING) 1).1 in
  let sv6 := (submitGuess sv5 "ROOM01" "p-bob" "cat").1 in
  let sv7 := (submitGuess sv6 "ROOM01" "p-carol" "cat").1 in
  let sv8 := handleTurnEnd sv7 "ROOM01" in
  let sv9 := advanceLive sv8 "ROOM01" (offer ["Run"; "Cat"; "Park"]) in
  let sv10 := (On.selectWord sv9 "ROOM01" "p-bob" (mkWord "Dog" THING) 2).1 in
  let sv11 := (submitGuess sv10 "ROOM01" "p-alice" "dog").1 in
  let sv12 := (submitGuess sv11 "ROOM01" "p-carol" "dog").1 in
  let sv13 := handleTurnEnd sv12 "ROOM01" in
  let sv14 :=
    advanceLive sv13 "ROOM01"
      (offer ["Run"; "Cat"; "Park"; "Jump"; "Dog"; "Beach"]) in
  (On.selectWord sv14 "ROOM01" "p-carol" (mkWord "Sun" THING) 3).1.

(** Alice disconnects while Carol draws: Bob and Carol remain, and the
    drawer index, still 2, is past the end of the member list. *)
Definition trioShrunk : Server := leaveRoom trioDrawing "ROOM01" "p-alice".

Definition playersOf (sv : Server) (c : string) : list Player :=
  default [] (players <$> sv_rooms sv !! c).

(** ** Properties *)

(** *** Strings *)

Section strings.
Import JsString.

Lemma isWhiteSpace_lowerChar c : isWhiteSpace (lowerChar c) = isWhiteSpace c.
Proof. by destruct c as [[] [] [] [] [] [] [] []]. Qed.

Lemma trimStart_lower s : toLowerCase (trimStart s) = trimStart (toLowerCase s).
Proof.
  induction s as [|c s IH]; [done|]. simpl.
  rewrite isWhiteSpace_lowerChar. by destruct (isWhiteSpace c).
Qed.

Lemma trimEnd_lower s : toLowerCase (trimEnd s) = trimEnd (toLowerCase s).
Proof.
  induction s as [|c s IH]; [done|]. simpl.
  rewrite <- IH, isWhiteSpace_lowerChar.
  destruct (trimEnd s); simpl; [by destruct (isWhiteSpace c)|done].
Qed.

Lemma trim_lower s : toLowerCase (trim s) = trim (toLowerCase s).
Proof. unfold trim. by rewrite trimEnd_lower, trimStart_lower. Qed.

Lemma trimStart_ws a s : allWhiteSpace a = true → trimStart (a +:+ s) = trimStart s.
Proof.
  induction a as [|c a IH]; [done|]. simpl.
  intros [Hc Ha]%andb_prop. rewrite Hc. auto.
Qed.

Lemma trimEnd_all_ws b : allWhiteSpace b = true → trimEnd b = EmptyString.
Proof.
  induction b as [|c b IH]; [done|]. simpl.
  intros [Hc Hb]%andb_prop. by rewrite IH, Hc.
Qed.

Lemma trimEnd_ws s b : allWhiteSpace b = true → trimEnd (s +:+ b) = trimEnd s.
Proof.
  intros Hb. induction s as [|c s IH]; simpl.
  - by apply trimEnd_all_ws.
  - by rewrite IH.
Qed.

Lemma trimStart_all_ws b : allWhiteSpace b = true → trimStart b = EmptyString.
Proof.
  induction b as [|c b IH]; [done|]. simpl.
  intros [Hc Hb]%andb_prop. rewrite Hc. auto.
Qed.

Lemma trim_ws_right s b : allWhiteSpace b = true → trim (s +:+ b) = trim s.
Proof.
  intros Hb. unfold trim. induction s as [|c s IH]; simpl.
  - by rewrite trimStart_all_ws.
  - destruct (isWhiteSpace c); [done|].
    change (String c (s +:+ b)) with (String c s +:+ b).
    by apply trimEnd_ws.
Qed.

Lemma trim_padding a s b :
  allWhiteSpace a = true → allWhiteSpace b = true →
  trim (a +:+ s +:+ b) = trim s.
Proof.
  intros Ha Hb. unfold trim at 1. rewrite trimStart_ws by done.
  by apply trim_ws_right.
Qed.

End strings.

(** *** Guess evaluation *)

Lemma checkGuess_some gs c st w guess :
  gs !! c = Some st → currentWord st = Some w →
  checkGuess gs c guess
  = bool_decide (JsString.toLowerCase (JsString.trim guess)
                 = JsString.toLowerCase (word w)).
Proof. intros Hst Hw. unfold checkGuess. by rewrite Hst, Hw. Qed.

(** Without a current word no guess is correct. *)
Lemma checkGuess_no_word gs c st guess :
  gs !! c = Some st → currentWord st = None → checkGuess gs c guess = false.
Proof. intros Hst Hw. unfold checkGuess. by rewrite Hst, Hw. Qed.

(** C4: with a current word set, [checkGuess] answers true exactly when
    the guess, trimmed and lower-cased, is the lower-cased current word;
    in particular the answer does not change when white space is put
    around the guess or when the guess is replaced by one that differs
    only in letter case. *)
Theorem checkGuess_case_and_trim_insensitive gs c st w guess :
  gs !! c = Some st → currentWord st = Some w →
  (checkGuess gs c guess = true
   ↔ JsString.toLowerCase (JsString.trim guess)
     = JsString.toLowerCase (word w))
  ∧ (∀ a b, JsString.allWhiteSpace a = true →
            JsString.allWhiteSpace b = true →
            checkGuess gs c (a +:+ guess +:+ b) = checkGuess gs c guess)
  ∧ (∀ guess', JsString.toLowerCase guess' = JsString.toLowerCase guess →
               checkGuess gs c guess' = checkGuess gs c guess).
Proof.
  intros Hst Hw. split_and!.
  - rewrite (checkGuess_some _ _ _ _ _ Hst Hw). apply bool_decide_eq_true.
  - intros a b Ha Hb. rewrite !(checkGuess_some _ _ _ _ _ Hst Hw).
    by rewrite trim_padding.
  - intros guess' Heq. rewrite !(checkGuess_some _ _ _ _ _ Hst Hw).
    by rewrite !trim_lower, Heq.
Qed.

Lemma checkGuess_case_and_trim_insensitive_witness :
  checkGuess {["ROOM01" := catState]} "ROOM01" "  Cat " = true
  ∧ checkGuess {["ROOM01" := catState]} "ROOM01" "cAT" = true
  ∧ checkGuess {["ROOM01" := catState]} "ROOM01" "Ca t" = false.
Proof.
  pose proof (checkGuess_case_and_trim_insensitive
                {["ROOM01" := catState]} "ROOM01" catState
                (mkWord "Cat" THING)) as H.
  split_and!.
  - apply (H "  Cat "); [apply lookup_singleton_eq | done | done].
  - apply (H "cAT"); [apply lookup_singleton_eq | done | done].
  - apply not_true_is_false. intros Hc.
    apply (H "Ca t") in Hc; [discriminate | apply lookup_singleton_eq | done].
Defined.

(** *** The countdown *)

Lemma onState_lookup f (gs : GameStates) c c' st' :
  (onState f gs c).1 !! c' = Some st' →
  gs !! c' = Some st' ∨ ∃ st, gs !! c = Some st ∧ st' = f st.
Proof.
  unfold onState. destruct (gs !! c) as [st|] eqn:Hc; simpl; [|by left].
  rewrite lookup_insert. case_decide; [|by left].
  intros [= <-]. right. eauto.
Qed.

Lemma gs_step_timeLeft gs gs' :
  gs_step gs gs' →
  map_Forall (λ _ st, timeLeft_ok st) gs →
  map_Forall (λ _ st, timeLeft_ok st) gs'.
Proof.
  unfold timeLeft_ok, TURN_DURATION_SECONDS.
  intros Hstep Hinv c' st' Hlook. destruct Hstep; simpl in Hlook.
  - rewrite lookup_insert in Hlook. case_decide.
    + injection Hlook as <-. simpl. lia.
    + by apply (Hinv c').
  - rewrite lookup_delete in Hlook. case_decide; [done|]. by apply (Hinv c').
  - unfold startGame in Hlook. destruct (gs !! c) as [s|] eqn:Hc; simpl in Hlook.
    + rewrite lookup_insert in Hlook. case_decide.
      * injection Hlook as <-. simpl. by apply (Hinv c).
      * by apply (Hinv c').
    + by apply (Hinv c').
  - apply onState_lookup in Hlook as [?|(s & Hs & ->)]; [by apply (Hinv c')|].
    simpl. by apply (Hinv c).
  - apply onState_lookup in Hlook as [?|(s & Hs & ->)]; [by apply (Hinv c')|].
    simpl. by apply (Hinv c).
  - apply onState_lookup in Hlook as [?|(s & Hs & ->)]; [by apply (Hinv c')|].
    simpl. unfold TURN_DURATION_SECONDS. lia.
  - apply onState_lookup in Hlook as [?|(s & Hs & ->)]; [by apply (Hinv c')|].
    simpl. by apply (Hinv c).
  - apply onState_lookup in Hlook as [?|(s & Hs & ->)]; [by apply (Hinv c')|].
    simpl. by apply (Hinv c).
  - apply onState_lookup in Hlook as [?|(s & Hs & ->)]; [by apply (Hinv c')|].
    simpl. by apply (Hinv c).
  - apply onState_lookup in Hlook as [?|(s & Hs & ->)]; [by apply (Hinv c')|].
    simpl. by apply (Hinv c).
  - unfold decrementTimer in Hlook.
    destruct (onState decrementTimer_state gs c) as [gs1 r] eqn:Hon.
    simpl in Hlook. replace gs1 with (onState decrementTimer_state gs c).1 in Hlook
      by (by rewrite Hon).
    apply onState_lookup in Hlook as [?|(s & Hs & ->)]; [by apply (Hinv c')|].
    simpl. pose proof (Hinv c s Hs). simpl in *. lia.
  - apply onState_lookup in Hlook as [?|(s & Hs & ->)]; [by apply (Hinv c')|].
    simpl. by apply (Hinv c).
Qed.

(** The timer callbacks and the socket handlers change the store only
    through those functions and that assignment, so they keep it
    reachable. *)
Lemma handleTurnEnd_reachable sv c :
  reachable (sv_gameStates sv) → reachable (sv_gameStates (handleTurnEnd sv c)).
Proof.
  intros Hr. unfold handleTurnEnd.
  destruct (sv_rooms sv !! c); [|done].
  destruct (sv_gameStates sv !! c); [|done]. simpl.
  eapply reachable_step; [|apply step_addMessage].
  eapply reachable_step; [exact Hr|apply step_endTurn].
Qed.

Lemma timerTick_reachable sv c :
  reachable (sv_gameStates sv) → reachable (sv_gameStates (timerTick sv c)).
Proof.
  intros Hr. unfold timerTick.
  pose proof (reachable_step _ _ Hr (step_decrementTimer _ c)) as Hr1.
  destruct (decrementTimer (sv_gameStates sv) c) as [gs1 [t|]]; [|done].
  destruct (t <=? 0); [|done]. by apply handleTurnEnd_reachable.
Qed.

Lemma submitGuess_reachable sv c pid txt :
  reachable (sv_gameStates sv) →
  reachable (sv_gameStates (submitGuess sv c pid txt).1).
Proof.
  intros Hr. unfold submitGuess.
  assert (∀ m, reachable (sv_gameStates (postChat sv c m))) as Hchat.
  { intros m. simpl. eapply reachable_step; [exact Hr|apply step_addMessage]. }
  destruct (sv_rooms sv !! c); [|done].
  destruct (sv_gameStates sv !! c); [|done].
  destruct (list_find _ _) as [[? player]|]; [|done].
  destruct (hasGuessedCorrectly player || _); [by apply Hchat|].
  destruct (checkGuess _ _ _ && _); [|by apply Hchat].
  destruct (handleCorrectGuess _ _ _ _) as [ps' [[res|]|]];
    [|by apply Hchat|done].
  assert (reachable
            (sv_gameStates
               (postChat (storePlayers sv c r ps') c
                  (chatMessage pid (pl_name player)
                     ("Guessed the word! (+" +:+ pretty (gr_points res)
                      +:+ ")") true)))) as Hok.
  { simpl. eapply reachable_step; [exact Hr|apply step_addMessage]. }
  by destruct (gr_allGuessed res).
Qed.

Lemma leaveRoom_reachable sv c pid :
  reachable (sv_gameStates sv) → reachable (sv_gameStates (leaveRoom sv c pid)).
Proof.
  intros Hr. unfold leaveRoom. destruct (_ && _); [|done].
  destruct (removePlayerFromRoom _ _ _) as [rooms' result].
  destruct (deleted result); [|done]. simpl.
  eapply reachable_step; [exact Hr|apply step_delete].
Qed.

Lemma handleRoundEnd_reachable sv c :
  reachable (sv_gameStates sv) →
  reachable (sv_gameStates (handleRoundEnd sv c).1).
Proof.
  intros Hr. unfold handleRoundEnd.
  destruct (sv_gameStates sv !! c); [|done].
  assert (reachable (endRound (sv_gameStates sv) c).1) as Hr1
    by (eapply reachable_step; [exact Hr|apply step_endRound]).
  by case_bool_decide.
Qed.

Lemma handleStartRound_reachable sv c n :
  reachable (sv_gameStates sv) →
  reachable (sv_gameStates (handleStartRound sv c n).1).
Proof.
  intros Hr. unfold handleStartRound.
  destruct (sv_rooms sv !! c); [|done]. simpl.
  eapply reachable_step; [|apply step_addMessage].
  eapply reachable_step; [exact Hr|apply step_startRound].
Qed.

Lemma handleNextTurn_reachable sv c i ws :
  reachable (sv_gameStates sv) →
  reachable (sv_gameStates (handleNextTurn sv c i ws).1).
Proof.
  intros Hr. unfold handleNextTurn.
  destruct (sv_rooms sv !! c); [|done].
  destruct (sv_gameStates sv !! c) eqn:Hst; [|done].
  case_bool_decide; [by apply handleRoundEnd_reachable|]. simpl.
  eapply reachable_step; [exact Hr|apply step_startTurn].
Qed.

Lemma sv_step_at_reachable c sv sv' :
  sv_step_at c sv sv' →
  reachable (sv_gameStates sv) → reachable (sv_gameStates sv').
Proof.
  intros Hstep Hr. destruct Hstep.
  - simpl. eapply reachable_step; [exact Hr|apply step_initialize].
  - unfold On.joinRoom. destruct (sv_rooms sv !! c); [|done].
    destruct (_ && _); [done|].
    destruct (addPlayerToRoom _ _ _) as [rooms' [e|room']]; simpl; [done|].
    destruct (sv_gameStates sv !! c); [done|].
    eapply reachable_step; [exact Hr|apply step_initialize].
  - by apply leaveRoom_reachable.
  - unfold On.startGame. destruct (sv_rooms sv !! c) as [room|]; [|done].
    case_bool_decide; [done|]. case_bool_decide; [done|].
    pose proof (reachable_step _ _ Hr
                  (step_startGame _ c (players (setStatus PLAYING room)))) as Hr1.
    by destruct (startGame _ _ _) as [[gs' ps'] r].
  - unfold On.selectWord. destruct (sv_rooms sv !! c) as [room|]; [|done].
    destruct (sv_gameStates sv !! c) as [g|]; [|done].
    destruct (players room !! _) as [d|]; [|done].
    case_bool_decide; [done|]. simpl.
    eapply reachable_step; [|apply step_armTimer].
    eapply reachable_step; [|apply step_addMessage].
    eapply reachable_step; [exact Hr|apply step_selectWord].
  - unfold On.drawUpdate. destruct (sv_rooms sv !! c) as [room|]; [|done].
    destruct (sv_gameStates sv !! c) as [g|]; [|done].
    destruct (players room !! _) as [drawer|]; [|done].
    case_bool_decide; [done|]. simpl.
    eapply reachable_step; [exact Hr|apply step_updateCanvas].
  - by apply submitGuess_reachable.
  - unfold On.chatMessage. destruct (sv_rooms sv !! c) as [room|]; [|done].
    destruct (list_find _ _) as [[? player]|]; [|done]. simpl.
    eapply reachable_step; [exact Hr|apply step_addMessage].
  - unfold On.restartGame. destruct (sv_rooms sv !! c) as [room|]; [|done].
    simpl. eapply reachable_step; [exact Hr|apply step_initialize].
  - by apply timerTick_reachable.
  - by apply handleTurnEnd_reachable.
  - unfold advanceAfterTurnEnd. case_bool_decide.
    + by apply handleRoundEnd_reachable.
    + by apply handleNextTurn_reachable.
  - by apply handleStartRound_reachable.
  - by apply handleStartRound_reachable.
  - by apply handleNextTurn_reachable.
Qed.

Lemma sv_reachable_store sv :
  sv_reachable sv → reachable (sv_gameStates sv).
Proof.
  induction 1 as [|sv sv' _ IH [c Hstep]]; [apply reachable_empty|].
  by eapply sv_step_at_reachable.
Qed.

(** Reachable servers are closed under the handlers and callbacks. *)
Section closure.
Context (sv : Server) (Hsv : sv_reachable sv).

Lemma reach_joinRoom c a pl : sv_reachable (On.joinRoom sv c a pl).1.
Proof. eapply sv_reachable_step; [done|exists c; apply sv_joinRoom]. Qed.

Lemma reach_leaveRoom c pid : sv_reachable (leaveRoom sv c pid).
Proof. eapply sv_reachable_step; [done|exists c; apply sv_leaveRoom]. Qed.

Lemma reach_startGame c pid : sv_reachable (On.startGame sv c pid).1.1.
Proof. eapply sv_reachable_step; [done|exists c; apply sv_startGame]. Qed.

Lemma reach_selectWord c pid w h :
  sv_reachable (On.selectWord sv c pid w h).1.
Proof. eapply sv_reachable_step; [done|exists c; apply sv_selectWord]. Qed.

Lemma reach_submitGuess c pid txt :
  sv_reachable (submitGuess sv c pid txt).1.
Proof. eapply sv_reachable_step; [done|exists c; apply sv_submitGuess]. Qed.

Lemma reach_timerTick c : sv_reachable (timerTick sv c).
Proof. eapply sv_reachable_step; [done|exists c; apply sv_timerTick]. Qed.

Lemma reach_handleTurnEnd c : sv_reachable (handleTurnEnd sv c).
Proof. eapply sv_reachable_step; [done|exists c; apply sv_handleTurnEnd]. Qed.

Lemma reach_handleStartRound c n :
  sv_reachable (handleStartRound sv c n).1.
Proof.
  eapply sv_reachable_step; [done|exists c; apply sv_handleStartRound].
Qed.

Lemma reach_handleNextTurn c i ws :
  sv_reachable (handleNextTurn sv c i ws).1.
Proof.
  eapply sv_reachable_step; [done|exists c; apply sv_handleNextTurn].
Qed.

Lemma reach_advanceLive c ws : sv_reachable (advanceLive sv c ws).
Proof.
  unfold advanceLive. destruct (sv_gameStates sv !! c) as [g|]; [|done].
  destruct (sv_rooms sv !! c) as [r|]; [|done].
  eapply sv_reachable_step; [done|exists c; apply sv_advanceAfterTurnEnd].
Qed.

End closure.

Lemma lobbyServer_reachable : sv_reachable lobbyServer.
Proof.
  unfold lobbyServer.
  eapply sv_reachable_step; [|exists "ROOM01"; apply sv_joinRoom].
  eapply sv_reachable_step; [|exists "ROOM01"; apply sv_joinRoom].
  eapply sv_reachable_step; [|exists "ROOM01"; apply sv_createRoom].
  apply sv_reachable_empty.
Qed.

Lemma partyDrawing_reachable : sv_reachable partyDrawing.
Proof.
  unfold partyDrawing. cbv zeta.
  apply reach_selectWord, reach_handleNextTurn, reach_handleStartRound,
    reach_startGame, reach_joinRoom, reach_joinRoom, lobbyServer_reachable.
Qed.

Lemma trioDrawing_reachable : sv_reachable trioDrawing.
Proof.
  unfold trioDrawing. cbv zeta.
  apply reach_selectWord, reach_advanceLive, reach_handleTurnEnd,
    reach_submitGuess, reach_submitGuess,
    reach_selectWord, reach_advanceLive, reach_handleTurnEnd,
    reach_submitGuess, reach_submitGuess,
    reach_selectWord, reach_handleNextTurn, reach_handleStartRound,
    reach_startGame, reach_joinRoom, lobbyServer_reachable.
Qed.

(** C9: in every reachable store, every game state has a [timeLeft] that is
    not negative (and not above the turn duration): it starts at 0, word
    selection sets it to 80, and a decrement never goes below 0.  The store
    of every reachable server, with the intervals its handlers have armed,
    is such a store. *)
Theorem timeLeft_never_negative gs c st :
  reachable gs → gs !! c = Some st →
  0 ≤ timeLeft st ≤ TURN_DURATION_SECONDS
  ∧ timeLeft initialState = 0
  ∧ (∀ w, timeLeft (selectWord_state w st) = 80)
  ∧ timeLeft (decrementTimer_state st) = Z.max 0 (timeLeft st - 1)
  ∧ (∀ sv, sv_reachable sv → reachable (sv_gameStates sv)).
Proof.
  intros Hreach Hst.
  split; [|split_and!; [done..|apply sv_reachable_store]].
  revert c st Hst. change (map_Forall (λ _ st, timeLeft_ok st) gs).
  induction Hreach as [|gs gs' _ IH Hstep].
  - apply map_Forall_empty.
  - by eapply gs_step_timeLeft.
Qed.

(** One second into Alice's turn: the interval armed by [select-word] has
    the handle 1 and has fired once. *)
Lemma timeLeft_never_negative_witness :
  reachable (sv_gameStates partyTicked)
  ∧ sv_gameStates partyTicked !! "ROOM01" = Some partyTickedState
  ∧ timerInterval partyTickedState = Some 1%nat
  ∧ timeLeft partyTickedState = 79
  ∧ 0 ≤ timeLeft partyTickedState ≤ TURN_DURATION_SECONDS.
Proof.
  assert (reachable (sv_gameStates partyTicked)) as Hr.
  { apply sv_reachable_store, reach_timerTick, partyDrawing_reachable. }
  assert (sv_gameStates partyTicked !! "ROOM01" = Some partyTickedState)
    as Hl by (by vm_compute).
  split_and!; [exact Hr|exact Hl|by vm_compute..|];
    apply (timeLeft_never_negative _ "ROOM01" _ Hr Hl).
Defined.

(** The store of the race of C1, whose interval is armed, is reachable as
    well. *)
Lemma raceServer_store_reachable : reachable (sv_gameStates raceServer).
Proof.
  assert (sv_gameStates raceServer
          = Nat.iter 79 (λ g, (decrementTimer g "ROOM01").1)
              (armTimer
                 (selectWord
                    (startTurn (initializeGameState ∅ "ROOM01").1 "ROOM01" 0
                       [mkWord "Run" ACTION; mkWord "Cat" THING;
                        mkWord "Park" PLACE]).1
                    "ROOM01" (mkWord "Cat" THING)).1 "ROOM01" 7).1) as ->
    by (by vm_compute).
  generalize 79%nat. intros n. induction n as [|n IH]; simpl.
  - eapply reachable_step; [|apply step_armTimer].
    eapply reachable_step; [|apply step_selectWord].
    eapply reachable_step; [|apply step_startTurn].
    eapply reachable_step; [|apply step_initialize].
    apply reachable_empty.
  - eapply reachable_step; [exact IH|apply step_decrementTimer].
Qed.

(** *** Room registry *)

Lemma list_find_id_Some (ps : list Player) pid :
  (∃ p, p ∈ ps ∧ pl_id p = pid) →
  is_Some (list_find (λ p, pl_id p = pid) ps).
Proof.
  intros (p & Hin & Hid).
  destruct (list_find (λ p, pl_id p = pid) ps) eqn:Hf; [done|].
  apply list_find_None in Hf. rewrite Forall_forall in Hf.
  by destruct (Hf p Hin).
Qed.

Lemma list_find_id_None (ps : list Player) pid :
  (∀ p, p ∈ ps → pl_id p ≠ pid) →
  list_find (λ p, pl_id p = pid) ps = None.
Proof. intros H. apply list_find_None, Forall_forall. exact H. Qed.

(** C5 (as the code has it): an unknown code gives "Room not found"; a
    room at capacity gives "Room is full" and a room that is PLAYING gives
    "Game already in progress", for members and newcomers alike; below
    capacity and WAITING, a member is answered with success and the room
    is left as it is, and a newcomer is appended to the member list and
    becomes host exactly when the list was empty. *)
Theorem addPlayerToRoom_cases (rooms : Rooms) c player :
  (rooms !! c = None →
   addPlayerToRoom rooms c player = (rooms, AddError "Room not found"))
  ∧ (∀ room, rooms !! c = Some room →
     ((maxPlayers room ≤ length (players room))%nat →
      addPlayerToRoom rooms c player = (rooms, AddError "Room is full"))
     ∧ ((length (players room) < maxPlayers room)%nat →
        status room = PLAYING →
        addPlayerToRoom rooms c player
        = (rooms, AddError "Game already in progress"))
     ∧ ((length (players room) < maxPlayers room)%nat →
        status room = WAITING →
        (∃ p, p ∈ players room ∧ pl_id p = pl_id player) →
        addPlayerToRoom rooms c player = (rooms, AddOk room))
     ∧ ((length (players room) < maxPlayers room)%nat →
        status room = WAITING →
        (∀ p, p ∈ players room → pl_id p ≠ pl_id player) →
        ∃ room',
          addPlayerToRoom rooms c player
          = (<[c := room']> rooms, AddOk room')
          ∧ players room' = players room ++ [player]
          ∧ hostId room' = (if bool_decide (players room = [])
                            then Some (pl_id player) else hostId room)
          ∧ status room' = WAITING
          ∧ maxPlayers room' = maxPlayers room)).
Proof.
  split.
  { intros Hnone. unfold addPlayerToRoom. by rewrite Hnone. }
  intros room Hroom. unfold addPlayerToRoom. rewrite Hroom. split_and!.
  - intros Hfull. by rewrite bool_decide_true.
  - intros Hlt Hst. rewrite bool_decide_false by lia.
    by rewrite bool_decide_true.
  - intros Hlt Hst Hmem. rewrite bool_decide_false by lia.
    rewrite bool_decide_false by (by rewrite Hst).
    by destruct (list_find_id_Some _ _ Hmem) as [[i p] ->].
  - intros Hlt Hst Hnew. rewrite bool_decide_false by lia.
    rewrite bool_decide_false by (by rewrite Hst).
    rewrite (list_find_id_None _ _ Hnew). simpl.
    rewrite length_app. simpl.
    destruct (players room) as [|q qs] eqn:Hps; simpl.
    + eexists. split; [reflexivity|]. done.
    + rewrite bool_decide_false by lia.
      eexists. split; [reflexivity|]. done.
Qed.

Lemma addPlayerToRoom_cases_witness :
  addPlayerToRoom {["ROOM01" := lobbyRoom [] WAITING]} "ROOM01" alice
  = (<["ROOM01" := lobbyRoom [alice] WAITING]>
       {["ROOM01" := lobbyRoom [] WAITING]},
     AddOk (lobbyRoom [alice] WAITING))
  ∧ addPlayerToRoom {["ROOM01" := lobbyRoom [alice; bob] WAITING]}
      "ROOM01" alice
    = ({["ROOM01" := lobbyRoom [alice; bob] WAITING]},
       AddOk (lobbyRoom [alice; bob] WAITING)).
Proof.
  split.
  - destruct (addPlayerToRoom_cases {["ROOM01" := lobbyRoom [] WAITING]}
                "ROOM01" alice) as [_ H].
    destruct (H (lobbyRoom [] WAITING)) as (_ & _ & _ & H4);
      [apply lookup_singleton_eq|].
    destruct H4 as (room' & Heq & Hps & Hhost & Hst & Hmax);
      [simpl; lia | done | by intros p ?%elem_of_nil |].
    rewrite Heq. by destruct room'; simpl in *; subst.
  - destruct (addPlayerToRoom_cases
                {["ROOM01" := lobbyRoom [alice; bob] WAITING]}
                "ROOM01" alice) as [_ H].
    destruct (H (lobbyRoom [alice; bob] WAITING)) as (_ & _ & H3 & _);
      [apply lookup_singleton_eq|].
    apply H3; [simpl; lia | done |].
    exists alice. split; [apply list_elem_of_here | done].
Defined.

(** C5, the rejoin exception fails: a member who joins again is refused
    while the game is PLAYING, and also while the room is at capacity. *)
Lemma addPlayerToRoom_rejoin_refused :
  (alice ∈ players (lobbyRoom [alice; bob] PLAYING)
   ∧ addPlayerToRoom {["ROOM01" := lobbyRoom [alice; bob] PLAYING]}
       "ROOM01" alice
     = ({["ROOM01" := lobbyRoom [alice; bob] PLAYING]},
        AddError "Game already in progress"))
  ∧ (mkPlayer "p-3" "Guest" 0 false ∈ players (lobbyRoom eightPlayers WAITING)
     ∧ addPlayerToRoom {["ROOM01" := lobbyRoom eightPlayers WAITING]}
         "ROOM01" (mkPlayer "p-3" "Guest" 0 false)
       = ({["ROOM01" := lobbyRoom eightPlayers WAITING]},
          AddError "Room is full")).
Proof.
  split_and!.
  - apply list_elem_of_here.
  - unfold addPlayerToRoom. by rewrite lookup_singleton_eq.
  - apply list_elem_of_lookup. by exists 3%nat.
  - unfold addPlayerToRoom. by rewrite lookup_singleton_eq.
Qed.

Lemma removePlayerFromRoom_some (rooms : Rooms) c pid room :
  rooms !! c = Some room →
  removePlayerFromRoom rooms c pid
  = let remaining := filter (λ p, pl_id p ≠ pid) (players room) in
    match remaining with
    | [] => (delete c rooms, RemoveDeleted)
    | first :: _ =>
        let room' :=
          if bool_decide (hostId room = Some pid)
          then setHost (Some (pl_id first)) (setPlayers remaining room)
          else setPlayers remaining room in
        (<[c := room']> rooms, RemoveKept room')
    end.
Proof.
  intros Hroom. unfold removePlayerFromRoom. rewrite Hroom. simpl.
  by destruct (filter _ (players room)).
Qed.

(** C8: removing a player drops every member with that identity and keeps
    the others in order.  When nobody remains, the room leaves the
    registry, [deleted] is signalled and the leave handler drops the
    room's game state.  When somebody remains, the room stays with the
    remaining members; if the removed identity was the host, the first
    remaining member is the new host, otherwise the host is unchanged. *)
Theorem removePlayerFromRoom_spec (sv : Server) c pid room :
  sv_rooms sv !! c = Some room →
  let remaining := filter (λ p, pl_id p ≠ pid) (players room) in
  let result := removePlayerFromRoom (sv_rooms sv) c pid in
  (∀ p, p ∈ remaining ↔ p ∈ players room ∧ pl_id p ≠ pid)
  ∧ (remaining = [] →
     result.1 !! c = None ∧ deleted result.2 = true
     ∧ (c ≠ "" → pid ≠ "" →
        sv_rooms (leaveRoom sv c pid) !! c = None
        ∧ sv_gameStates (leaveRoom sv c pid) !! c = None))
  ∧ (remaining ≠ [] →
     ∃ room', result.1 !! c = Some room'
       ∧ result.2 = RemoveKept room'
       ∧ deleted result.2 = false
       ∧ players room' = remaining
       ∧ (hostId room = Some pid → hostId room' = pl_id <$> head remaining)
       ∧ (hostId room ≠ Some pid → hostId room' = hostId room)
       ∧ (c ≠ "" → pid ≠ "" →
          sv_rooms (leaveRoom sv c pid) !! c = Some room'
          ∧ sv_gameStates (leaveRoom sv c pid) = sv_gameStates sv)).
Proof.
  intros Hroom remaining result.
  pose proof (removePlayerFromRoom_some _ _ pid _ Hroom) as Heq.
  fold result in Heq. simpl in Heq. fold remaining in Heq.
  split_and!.
  - intros p. unfold remaining. by rewrite list_elem_of_filter, (comm and).
  - intros Hnil. rewrite Hnil in Heq.
    assert (result.1 !! c = None) as H1 by (rewrite Heq; apply lookup_delete_eq).
    split_and!; [done | by rewrite Heq |].
    intros Hc Hp. unfold leaveRoom.
    rewrite !bool_decide_true by done. simpl. fold result.
    destruct result as [rooms' r]. simpl in *. injection Heq as -> ->.
    simpl. split; [done | apply lookup_delete_eq].
  - intros Hne. destruct remaining as [|first rest] eqn:Hrem; [done|].
    eexists. rewrite Heq. simpl.
    split_and!; [apply lookup_insert_eq | reflexivity | done | | | |].
    + by case_bool_decide.
    + intros Hhost. by rewrite bool_decide_true.
    + intros Hhost. by rewrite bool_decide_false.
    + intros Hc Hp. unfold leaveRoom.
      rewrite !bool_decide_true by done. simpl. fold result.
      rewrite Heq. simpl. split; [apply lookup_insert_eq | done].
Qed.

Lemma removePlayerFromRoom_spec_witness :
  let sv := mkServer {["ROOM01" := lobbyRoom [alice; bob] WAITING]}
              {["ROOM01" := initialState]} [] in
  sv_rooms sv !! "ROOM01" = Some (lobbyRoom [alice; bob] WAITING)
  ∧ ∃ room', sv_rooms (leaveRoom sv "ROOM01" "p-alice") !! "ROOM01"
             = Some room'
      ∧ players room' = [bob] ∧ hostId room' = Some "p-bob".
Proof.
  intros sv.
  assert (sv_rooms sv !! "ROOM01" = Some (lobbyRoom [alice; bob] WAITING))
    as Hroom by apply lookup_singleton_eq.
  split; [done|].
  destruct (removePlayerFromRoom_spec sv "ROOM01" "p-alice" _ Hroom)
    as (_ & _ & Hkept).
  destruct Hkept as (room' & _ & _ & _ & Hps & Hhost & _ & Hleave); [done|].
  exists room'. split_and!.
  - by apply Hleave.
  - exact Hps.
  - by apply Hhost.
Defined.

(** *** Correct guesses *)

Section correct_guess.
Context (gs : GameStates) (c : string) (st : GameState).
Hypothesis Hst : gs !! c = Some st.

Lemma filterE_isNotDrawer ps d (l : list Player) :
  ps !! currentPlayerIndex st = Some d →
  filterE (isNotDrawer st ps) l
  = Returned (filter (λ p, pl_id p ≠ pl_id d) l).
Proof.
  intros Hd. induction l as [|p l IH]; [done|]. simpl.
  unfold isNotDrawer at 1. rewrite Hd, IH, filter_cons.
  by destruct (decide (pl_id p ≠ pl_id d));
    [rewrite bool_decide_true | rewrite bool_decide_false].
Qed.

Lemma filterE_isRankedGuesser ps d (l : list Player) :
  ps !! currentPlayerIndex st = Some d →
  filterE (isRankedGuesser st ps) l
  = Returned (filter (λ p, hasGuessedCorrectly p = true
                           ∧ pl_id p ≠ pl_id d) l).
Proof.
  intros Hd. induction l as [|p l IH]; [done|]. simpl.
  unfold isRankedGuesser at 1, isNotDrawer. rewrite Hd, IH, filter_cons.
  destruct (hasGuessedCorrectly p) eqn:Hp.
  - destruct (decide (pl_id p ≠ pl_id d)).
    + by rewrite bool_decide_true, decide_True.
    + rewrite bool_decide_false by done. by rewrite decide_False by tauto.
  - by rewrite decide_False by (intros [? _]; done).
Qed.

(** Without a drawer in range, the second traversal always throws. *)
Lemma filterE_isNotDrawer_threw ps (l : list Player) :
  ps !! currentPlayerIndex st = None → l ≠ [] →
  filterE (isNotDrawer st ps) l = Threw.
Proof.
  intros Hd Hl. destruct l as [|p l]; [done|]. simpl.
  unfold isNotDrawer. by rewrite Hd.
Qed.

(** The success path of [handleCorrectGuess], drawer in range. *)
Lemma handleCorrectGuess_success pid ps d i player :
  ps !! currentPlayerIndex st = Some d →
  list_find (λ p, pl_id p = pid) ps = Some (i, player) →
  hasGuessedCorrectly player = false →
  let points := guessPoints (guessRank d ps) in
  let ps1 := <[i := awardPoints points player]> ps in
  let all :=
    forallb hasGuessedCorrectly (filter (λ p, pl_id p ≠ pl_id d) ps1) in
  handleCorrectGuess gs c pid ps
  = (if all
     then alter (addScore POINTS_DRAWER_ALL_GUESSED)
            (currentPlayerIndex st) ps1
     else ps1,
     Returned (Some (mkResult points all i))).
Proof.
  intros Hd Hfind Hflag points ps1 all.
  unfold handleCorrectGuess. rewrite Hst, Hfind, Hflag.
  rewrite (filterE_isRankedGuesser _ _ _ Hd).
  fold (guessRank d ps). fold points. fold ps1.
  apply list_find_Some in Hfind as (Hi & Hid & _).
  assert (∃ d1, ps1 !! currentPlayerIndex st = Some d1
                ∧ pl_id d1 = pl_id d) as (d1 & Hd1 & Hid1).
  { unfold ps1. destruct (decide (i = currentPlayerIndex st)) as [->|Hne].
    - rewrite list_lookup_insert_eq by (by eapply lookup_lt_Some).
      eexists. split; [done|]. simpl. congruence.
    - rewrite list_lookup_insert_ne by done. eauto. }
  rewrite (filterE_isNotDrawer _ _ _ Hd1), Hid1. fold all. rewrite Hd1.
  destruct all; [|done]. f_equal.
  apply list_eq. intros j.
  destruct (decide (currentPlayerIndex st = j)) as [<-|Hne].
  - rewrite list_lookup_alter_eq, Hd1.
    by rewrite list_lookup_insert_eq by (by eapply lookup_lt_Some).
  - by rewrite list_lookup_alter_ne, list_lookup_insert_ne.
Qed.

(** A call that returns a result went through the success path. *)
Lemma handleCorrectGuess_inv pid ps ps' res :
  handleCorrectGuess gs c pid ps = (ps', Returned (Some res)) →
  ∃ d i player,
    ps !! currentPlayerIndex st = Some d
    ∧ list_find (λ p, pl_id p = pid) ps = Some (i, player)
    ∧ hasGuessedCorrectly player = false.
Proof.
  intros Hcall.
  destruct (list_find (λ p, pl_id p = pid) ps) as [[i player]|] eqn:Hfind;
    [|by unfold handleCorrectGuess in Hcall; rewrite Hst, Hfind in Hcall].
  destruct (hasGuessedCorrectly player) eqn:Hflag;
    [by unfold handleCorrectGuess in Hcall;
        rewrite Hst, Hfind, Hflag in Hcall|].
  destruct (ps !! currentPlayerIndex st) as [d|] eqn:Hd; [by eauto 6|].
  exfalso. unfold handleCorrectGuess in Hcall.
  rewrite Hst, Hfind, Hflag in Hcall.
  destruct (filterE (isRankedGuesser st ps) ps); [|done].
  rewrite filterE_isNotDrawer_threw in Hcall; [done| |].
  - rewrite list_lookup_insert_ne; [done|].
    intros ->. apply list_find_Some in Hfind as (Hi & _). congruence.
  - apply list_find_Some in Hfind as (Hi & _).
    intros Hnil. apply (f_equal length) in Hnil.
    rewrite length_insert in Hnil. apply lookup_lt_Some in Hi.
    simpl in Hnil. lia.
Qed.

End correct_guess.

(** What a successful call leaves in the array, position by position. *)
Lemma guess_result_lookup (ps : list Player) i player pts idx (b : bool) j y :
  ps !! i = Some player →
  (if b then alter (addScore POINTS_DRAWER_ALL_GUESSED) idx
              (<[i := awardPoints pts player]> ps)
   else <[i := awardPoints pts player]> ps) !! j = Some y →
  ∃ x, ps !! j = Some x
       ∧ pl_id y = pl_id x
       ∧ hasGuessedCorrectly y
         = (if decide (j = i) then true else hasGuessedCorrectly x)
       ∧ score y = score x + (if decide (j = i) then pts else 0)
                   + (if b && bool_decide (j = idx)
                      then POINTS_DRAWER_ALL_GUESSED else 0).
Proof.
  intros Hi Hy.
  assert (∃ z, <[i := awardPoints pts player]> ps !! j = Some z
               ∧ pl_id y = pl_id z
               ∧ hasGuessedCorrectly y = hasGuessedCorrectly z
               ∧ score y = score z
                           + (if b && bool_decide (j = idx)
                              then POINTS_DRAWER_ALL_GUESSED else 0))
    as (z & Hz & Hyid & Hyflag & Hyscore).
  { destruct b; simpl.
    - rewrite list_lookup_alter in Hy. case_decide as Hidx.
      + subst j. rewrite bool_decide_true by done.
        destruct (_ !! idx) as [z|]; [|done]. injection Hy as <-.
        by exists z.
      + rewrite bool_decide_false by done. exists y.
        split_and!; [done..|lia].
    - exists y. split_and!; [done..|lia]. }
  rewrite list_lookup_insert in Hz. case_decide as Hji.
  - destruct Hji as [-> _]. injection Hz as <-. exists player.
    rewrite !decide_True by done. simpl in *. split_and!; [done..|lia].
  - assert (j ≠ i) as Hne.
    { intros ->. apply Hji. split; [done|]. by eapply lookup_lt_Some. }
    exists z. rewrite !decide_False by done. split_and!; [done..|lia].
Qed.

(** C10: a call for an identity that is not among the players, or whose
    player is already flagged, returns null and hands back the players
    exactly as they were; and once a call has succeeded for a player, the
    next call for the same player returns null and changes nothing, so
    guess points are not awarded twice. *)
Theorem handleCorrectGuess_failure_leaves_players (gs : GameStates) c pid ps :
  ((∀ p, p ∈ ps → pl_id p ≠ pid) →
   handleCorrectGuess gs c pid ps = (ps, Returned None))
  ∧ (∀ i player,
       list_find (λ p, pl_id p = pid) ps = Some (i, player) →
       hasGuessedCorrectly player = true →
       handleCorrectGuess gs c pid ps = (ps, Returned None))
  ∧ (∀ ps' res,
       handleCorrectGuess gs c pid ps = (ps', Returned (Some res)) →
       handleCorrectGuess gs c pid ps' = (ps', Returned None)).
Proof.
  split_and!.
  - intros Hnone. unfold handleCorrectGuess.
    rewrite (list_find_id_None _ _ Hnone). by destruct (gs !! c).
  - intros i player Hfind Hflag. unfold handleCorrectGuess.
    rewrite Hfind, Hflag. by destruct (gs !! c).
  - intros ps' res Hcall.
    destruct (gs !! c) as [st|] eqn:Hst;
      [|by unfold handleCorrectGuess in Hcall; rewrite Hst in Hcall].
    destruct (handleCorrectGuess_inv gs c st Hst _ _ _ _ Hcall)
      as (d & i & player & Hd & Hfind & Hflag).
    rewrite (handleCorrectGuess_success gs c st Hst _ _ _ _ _ Hd Hfind Hflag)
      in Hcall.
    injection Hcall as Hps' _.
    apply list_find_Some in Hfind as (Hi & Hid & Hfirst).
    assert (∃ p', list_find (λ p, pl_id p = pid) ps' = Some (i, p')
                  ∧ hasGuessedCorrectly p' = true) as (p' & Hfind' & Hflag').
    { assert (is_Some (ps' !! i)) as [p' Hp'].
      { apply lookup_lt_is_Some. rewrite <- Hps'.
        destruct (forallb _ _); rewrite ?length_alter, length_insert;
          by eapply lookup_lt_Some. }
      exists p'. pose proof Hp' as Hlook. rewrite <- Hps' in Hlook.
      apply (guess_result_lookup _ _ _ _ _ _ _ _ Hi) in Hlook
        as (x & Hx & Hxid & Hxflag & _).
      rewrite decide_True in Hxflag by done. split; [|done].
      apply list_find_Some. split_and!; [done|congruence|].
      intros j y Hy Hlt. rewrite <- Hps' in Hy.
      apply (guess_result_lookup _ _ _ _ _ _ _ _ Hi) in Hy
        as (x' & Hx' & Hx'id & _).
      rewrite Hx'id. by eapply Hfirst. }
    unfold handleCorrectGuess. by rewrite Hst, Hfind', Hflag'.
Qed.

Lemma handleCorrectGuess_failure_leaves_players_witness :
  handleCorrectGuess {["ROOM01" := catState]} "ROOM01" "p-carol" [alice; bob]
  = ([alice; bob], Returned None)
  ∧ ∃ ps', (handleCorrectGuess {["ROOM01" := catState]} "ROOM01" "p-bob"
              [alice; bob]).1 = ps'
           ∧ handleCorrectGuess {["ROOM01" := catState]} "ROOM01" "p-bob" ps'
             = (ps', Returned None).
Proof.
  split.
  - apply handleCorrectGuess_failure_leaves_players.
    intros p [->|[->|[]%elem_of_nil]%elem_of_cons]%elem_of_cons; done.
  - eexists. split; [reflexivity|].
    eapply (proj2 (proj2 (handleCorrectGuess_failure_leaves_players
                            _ _ _ [alice; bob]))).
    vm_compute. reflexivity.
Defined.

Section filter_length.
Context {A : Type} (P : A → Prop) `{!∀ x, Decision (P x)}.


End filter_length.


Section guesses_in_turn.
Context (gs : GameStates) (c : string) (st : GameState).
Hypothesis Hst : gs !! c = Some st.



End guesses_in_turn.






(** C2, after the drawer has left: four players, Alice draws "Cat".  Bob
    guesses it and is paid 500; Alice disconnects, which leaves the drawer
    index at 0, now Bob's slot; Carol guesses next and is paid 500 again,
    not 400, Dave after her 400, not 300, and the bonus for the drawer goes
    to Bob. *)
Theorem guess_points_after_drawer_left :
  sv_reachable partyDrawing
  ∧ playersOf partyDrawing "ROOM01" = [alice; bob; carol; dave]
  ∧ (currentPlayerIndex <$> sv_gameStates partyDrawing !! "ROOM01")
    = Some 0%nat
  ∧ (submitGuess partyDrawing "ROOM01" "p-bob" "cat").2
    = Returned (mkReply true (Some true) (Some 500))
  ∧ playersOf partyDrawerGone "ROOM01"
    = [mkPlayer "p-bob" "Bob" 500 true; carol; dave]
  ∧ (currentPlayerIndex <$> sv_gameStates partyDrawerGone !! "ROOM01")
    = Some 0%nat
  ∧ (submitGuess partyDrawerGone "ROOM01" "p-carol" "cat").2
    = Returned (mkReply true (Some true) (Some 500))
  ∧ (submitGuess partyCarolGuessed "ROOM01" "p-dave" "cat").2
    = Returned (mkReply true (Some true) (Some 400))
  ∧ playersOf (submitGuess partyCarolGuessed "ROOM01" "p-dave" "cat").1
      "ROOM01"
    = [mkPlayer "p-bob" "Bob" 800 true; mkPlayer "p-carol" "Carol" 500 true;
       mkPlayer "p-dave" "Dave" 400 true].
Proof.
  split; [apply partyDrawing_reachable|].
  split_and!; by vm_compute.
Qed.

(** *** The drawer's bonus and the early end of the turn *)





(** With the drawer index past the end of the list, a guess by a member
    who has not guessed yet never returns. *)
Lemma handleCorrectGuess_no_drawer (gs : GameStates) c st pid ps i player :
  gs !! c = Some st →
  ps !! currentPlayerIndex st = None →
  list_find (λ p, pl_id p = pid) ps = Some (i, player) →
  hasGuessedCorrectly player = false →
  (handleCorrectGuess gs c pid ps).2 = Threw.
Proof.
  intros Hst Hd Hfind Hflag. unfold handleCorrectGuess.
  rewrite Hst, Hfind, Hflag.
  destruct (filterE (isRankedGuesser st ps) ps) as [ranked|]; [|done].
  cbv zeta. rewrite filterE_isNotDrawer_threw; [done| |].
  - apply lookup_ge_None. rewrite length_insert. by apply lookup_ge_None.
  - apply list_find_Some in Hfind as (Hi & _).
    apply lookup_lt_Some in Hi. intros Hnil.
    apply (f_equal length) in Hnil. rewrite length_insert in Hnil.
    simpl in Hnil. lia.
Qed.

(** C3, after a member has left: three players in the third turn of
    round 1, Carol draws "Sun".  Alice disconnects: Bob and Carol remain
    and the drawer index, 2, is past the end of the list.  Bob's guess
    matches; he is paid 500 and flagged, so every member other than the
    drawer has guessed, and then the handler throws: Carol gets no bonus
    and no turn end is scheduled. *)
Theorem all_guessed_no_bonus_after_member_left :
  sv_reachable trioShrunk
  ∧ playersOf trioDrawing "ROOM01"
    = [mkPlayer "p-alice" "Alice" 800 false; mkPlayer "p-bob" "Bob" 800 false;
       mkPlayer "p-carol" "Carol" 800 false]
  ∧ playersOf trioShrunk "ROOM01"
    = [mkPlayer "p-bob" "Bob" 800 false; mkPlayer "p-carol" "Carol" 800 false]
  ∧ (phase <$> sv_gameStates trioShrunk !! "ROOM01") = Some DRAWING
  ∧ (currentPlayerIndex <$> sv_gameStates trioShrunk !! "ROOM01")
    = Some 2%nat
  ∧ checkGuess (sv_gameStates trioShrunk) "ROOM01" "sun" = true
  ∧ ∃ sv',
      submitGuess trioShrunk "ROOM01" "p-bob" "sun" = (sv', Threw)
      ∧ playersOf sv' "ROOM01"
        = [mkPlayer "p-bob" "Bob" 1300 true;
           mkPlayer "p-carol" "Carol" 800 false]
      ∧ sv_timeouts sv' = sv_timeouts trioShrunk
      ∧ sv_gameStates sv' = sv_gameStates trioShrunk.
Proof.
  split; [apply reach_leaveRoom, trioDrawing_reachable|].
  split_and!; [by vm_compute..|].
  eexists. split_and!; [by vm_compute..].
Qed.

(** *** The end of a turn *)

(** [endTurn] of gameState.js sets the phase whatever it was: applied to
    a state that is already in TURN_END it goes through the same
    assignments again. *)
Lemma endTurn_state_no_phase_check st :
  phase (endTurn_state st) = TURN_END
  ∧ endTurn_state (endTurn_state st) = endTurn_state st.
Proof. done. Qed.

(** [handleTurnEnd] does not look at the phase either: as long as the room
    and its state exist, every call appends a reveal message and schedules
    one more advance. *)
Lemma handleTurnEnd_appends sv c room st :
  sv_rooms sv !! c = Some room →
  sv_gameStates sv !! c = Some st →
  sv_rooms (handleTurnEnd sv c) = sv_rooms sv
  ∧ sv_gameStates (handleTurnEnd sv c) !! c
    = Some (addMessage_state (revealMessage (currentWord st))
              (endTurn_state st))
  ∧ sv_timeouts (handleTurnEnd sv c)
    = sv_timeouts sv ++ [(6000, AdvanceAfterTurnEnd c)].
Proof.
  intros Hroom Hst. unfold handleTurnEnd. rewrite Hroom, Hst. simpl.
  split_and!; [done| |done].
  unfold addMessage, endTurn, onState. rewrite Hst. simpl.
  rewrite lookup_insert_eq. simpl. by rewrite lookup_insert_eq.
Qed.

Lemma revealCount_snoc ms w :
  revealCount (ms ++ [revealMessage w]) = S (revealCount ms).
Proof.
  unfold revealCount. rewrite filter_app, length_app.
  rewrite filter_cons_True by (by split). simpl. lia.
Qed.

(** X25: two calls of [handleTurnEnd] in a row for a registered room,
    from any phase: two more reveal messages in the log and two more
    pending advances. *)
Lemma handleTurnEnd_twice sv c room st :
  sv_rooms sv !! c = Some room →
  sv_gameStates sv !! c = Some st →
  let sv2 := handleTurnEnd (handleTurnEnd sv c) c in
  revealCount (messagesOf sv2 c) = S (S (revealCount (messages st)))
  ∧ sv_timeouts sv2
    = sv_timeouts sv
      ++ [(6000, AdvanceAfterTurnEnd c); (6000, AdvanceAfterTurnEnd c)].
Proof.
  intros Hroom Hst sv2.
  destruct (handleTurnEnd_appends sv c room st Hroom Hst)
    as (Hrooms1 & Hst1 & Ht1).
  rewrite <- Hrooms1 in Hroom.
  destruct (handleTurnEnd_appends _ c room _ Hroom Hst1)
    as (_ & Hst2 & Ht2).
  fold sv2 in Hst2, Ht2. unfold messagesOf. rewrite Hst2, Ht2, Ht1.
  simpl. rewrite !revealCount_snoc, <- app_assoc. done.
Qed.

Lemma handleTurnEnd_twice_witness :
  revealCount
    (messagesOf (handleTurnEnd (handleTurnEnd partyDrawing "ROOM01") "ROOM01")
       "ROOM01") = 2%nat
  ∧ sv_timeouts (handleTurnEnd (handleTurnEnd partyDrawing "ROOM01") "ROOM01")
    = [(6000, AdvanceAfterTurnEnd "ROOM01");
       (6000, AdvanceAfterTurnEnd "ROOM01")].
Proof.
  assert (sv_rooms partyDrawing !! "ROOM01"
          = Some (lobbyRoom [alice; bob; carol; dave] PLAYING)) as Hroom
    by (by vm_compute).
  assert (sv_gameStates partyDrawing !! "ROOM01"
          = Some (setTimeLeft 80 partyTickedState)) as Hst
    by (by vm_compute).
  exact (handleTurnEnd_twice _ _ _ _ Hroom Hst).
Defined.

(** The offline client's [endTurn] checks the phase: a second application
    changes nothing. *)
Lemma Client_endTurn_idempotent st :
  Client.endTurn (Client.endTurn st) = Client.endTurn st.
Proof.
  unfold Client.endTurn.
  destruct (bool_decide (phase st = TURN_END)) eqn:Hphase.
  - by rewrite Hphase.
  - done.
Qed.

(** X26: on the offline client, ending a turn twice from a state that is
    not in TURN_END adds exactly one reveal message. *)
Lemma Client_endTurn_one_reveal st :
  phase st ≠ TURN_END →
  revealCount (messages (Client.endTurn (Client.endTurn st)))
  = S (revealCount (messages st)).
Proof.
  intros Hphase. rewrite Client_endTurn_idempotent. unfold Client.endTurn.
  rewrite bool_decide_false by done. simpl. apply revealCount_snoc.
Qed.

Lemma Client_endTurn_one_reveal_witness :
  revealCount (messages (Client.endTurn (Client.endTurn partyTickedState)))
  = 1%nat.
Proof. by apply (Client_endTurn_one_reveal partyTickedState). Defined.

(** C1, on the server: Bob's guess completes the turn with one second
    left, so the turn-end handler is scheduled for 2 s later while the
    interval is still armed; the interval takes the clock to zero and ends
    the turn (one reveal message), and the scheduled handler then runs as
    well: the log holds two reveal messages and two advances are
    pending. *)
Theorem handleTurnEnd_race_reveals_twice :
  sv_timeouts raceGuessed = [(2000, CallHandleTurnEnd "ROOM01")]
  ∧ (timerInterval <$> sv_gameStates raceGuessed !! "ROOM01") = Some (Some 7%nat)
  ∧ (phase <$> sv_gameStates raceTimedOut !! "ROOM01") = Some TURN_END
  ∧ revealCount (messagesOf raceTimedOut "ROOM01") = 1%nat
  ∧ (phase <$> sv_gameStates raceEndedAgain !! "ROOM01") = Some TURN_END
  ∧ revealCount (messagesOf raceEndedAgain "ROOM01") = 2%nat
  ∧ sv_timeouts raceEndedAgain
    = [(2000, CallHandleTurnEnd "ROOM01");
       (6000, AdvanceAfterTurnEnd "ROOM01");
       (6000, AdvanceAfterTurnEnd "ROOM01")].
Proof. split_and!; reflexivity. Qed.

(** *** Word candidates *)

(** C6, third round: with no word excluded and the draws 0, 7 and 2, the
    picks are Photography (ACTION), Waterfall (THING) and Waterfall
    (PLACE), so whatever the final shuffle does, the word Waterfall is
    offered twice. *)
Theorem generateWordOptions_offers_a_word_twice :
  Words.selectWords 3 [] [0; 7; 2]%nat
  = Some [mkWord "Photography" ACTION; mkWord "Waterfall" THING;
          mkWord "Waterfall" PLACE]
  ∧ Words.generateWordOptions 3 [] [0; 7; 2]%nat
      [mkWord "Waterfall" PLACE; mkWord "Photography" ACTION;
       mkWord "Waterfall" THING]
  ∧ ∀ options, Words.generateWordOptions 3 [] [0; 7; 2]%nat options →
               ¬ NoDup (word <$> options).
Proof.
  assert (Words.selectWords 3 [] [0; 7; 2]%nat
          = Some [mkWord "Photography" ACTION; mkWord "Waterfall" THING;
                  mkWord "Waterfall" PLACE]) as Hsel by reflexivity.
  split_and!; [exact Hsel| |].
  - eexists. split; [exact Hsel|].
    etrans; [apply Permutation_swap|]. apply Permutation_skip, Permutation_swap.
  - intros options (sel & Hsel' & Hperm) Hnodup.
    rewrite Hsel in Hsel'. injection Hsel' as <-.
    rewrite Hperm in Hnodup. simpl in Hnodup.
    apply NoDup_cons in Hnodup as [_ Hnodup].
    apply NoDup_cons in Hnodup as [Hnotin _].
    apply Hnotin, list_elem_of_here.
Qed.

Section word_options.
Import Words.

Lemma pick_elem_of {A} (l : list A) r x : pick l r = Some x → x ∈ l.
Proof. unfold pick. apply list_elem_of_lookup_2. Qed.

Lemma pushRandom_inv ws selected rs st' :
  pushRandom ws (selected, rs) = Some st' →
  (ws = [] ∧ st' = (selected, rs))
  ∨ (∃ x r, x ∈ ws ∧ st' = (selected ++ [x], tail rs) ∧ rs = r :: tail rs).
Proof.
  unfold pushRandom. case_bool_decide as Hlen.
  - destruct rs as [|r rs']; [done|].
    destruct (pick ws r) as [x|] eqn:Hpick; [|done].
    intros [= <-]. right. exists x, r. split_and!; [|done..].
    by eapply pick_elem_of.
  - intros [= <-]. left. split; [|done].
    destruct ws; [done|]. simpl in Hlen. lia.
Qed.

(** The loop only appends words of the pool whose word is not selected
    yet, and never goes past three. *)
Lemma fillUp_inv avail rs : ∀ selected out,
  fillUp avail selected rs = Some out →
  (length selected ≤ 3 → length out ≤ 3)%nat
  ∧ (∀ x, x ∈ selected → x ∈ out)
  ∧ (∀ x, x ∈ out → x ∈ selected ∨ x ∈ avail)
  ∧ (NoDup (word <$> selected) → NoDup (word <$> out)).
Proof.
  induction rs as [|r rs IH]; intros selected out; simpl.
  - case_match; [done|]. intros [= <-]. split_and!; auto.
  - destruct (bool_decide (length selected < 3)%nat
              && bool_decide (0 < length avail)%nat) eqn:Hcond;
      [|intros [= <-]; split_and!; auto].
    apply andb_prop in Hcond as [Hlt%bool_decide_eq_true _].
    destruct (pick avail r) as [x|] eqn:Hpick; [|done].
    apply pick_elem_of in Hpick.
    destruct (list_find _ selected) as [?|] eqn:Hfind; [by apply IH|].
    intros (Hlen & Hsub & Hsup & Hnodup)%IH. split_and!.
    + intros _. apply Hlen. rewrite length_app. simpl. lia.
    + intros y Hy. apply Hsub, elem_of_app. by left.
    + intros y Hy. apply Hsup in Hy as [Hy|Hy]; [|by right].
      apply elem_of_app in Hy as [Hy|Hy%list_elem_of_singleton];
        [by left | subst; by right].
    + intros Hnd. apply Hnodup. rewrite fmap_app. simpl.
      apply NoDup_app. split_and!; [done| |apply NoDup_singleton].
      intros wd (y & -> & Hy)%list_elem_of_fmap Hin%list_elem_of_singleton.
      apply list_find_None in Hfind. rewrite Forall_forall in Hfind.
      by apply (Hfind y).
Qed.

(** X20: whatever the draws and the shuffle, a category that has a word
    left in the pool is represented among the options. *)
Lemma generateWordOptions_covers_categories round ex rs options cat :
  generateWordOptions round ex rs options →
  (∃ x, x ∈ wordPool round ∧ (word x ∉ ex) ∧ category x = cat) →
  ∃ y, y ∈ options ∧ category y = cat.
Proof.
  intros (sel & Hsel & Hperm) (x & Hx & Hex & Hcat).
  unfold selectWords in Hsel.
  set (avail := filter (λ x, word x ∉ ex) (wordPool round)) in *.
  assert (x ∈ ofCategory cat avail) as Hxcat.
  { apply list_elem_of_filter. split; [done|].
    by apply list_elem_of_filter. }
  assert (∀ c y, y ∈ ofCategory c avail → category y = c) as Hof.
  { by intros c y [? _]%list_elem_of_filter. }
  apply bind_Some in Hsel as ([s1 rs1] & H1 & Hsel).
  apply bind_Some in Hsel as ([s2 rs2] & H2 & Hsel).
  apply bind_Some in Hsel as ([s3 rs3] & H3 & Hsel).
  apply fmap_Some in Hsel as (out & Hfill & ->).
  apply fillUp_inv in Hfill as (Hlen & Hsub & _ & _).
  apply pushRandom_inv in H1 as [[Hn1 [= -> ->]]|(x1 & r1 & Hx1 & [= -> ->] & _)];
  apply pushRandom_inv in H2 as [[Hn2 [= -> ->]]|(x2 & r2 & Hx2 & [= -> ->] & _)];
  apply pushRandom_inv in H3 as [[Hn3 [= -> ->]]|(x3 & r3 & Hx3 & [= -> ->] & _)];
  simpl in *; rewrite firstn_all2 in Hperm by lia;
  setoid_rewrite Hperm;
  (destruct cat;
   [ first [ by rewrite Hn1 in Hxcat; apply elem_of_nil in Hxcat
           | exists x1; split; [apply Hsub; set_solver | by apply Hof] ]
   | first [ by rewrite Hn2 in Hxcat; apply elem_of_nil in Hxcat
           | exists x2; split; [apply Hsub; set_solver | by apply Hof] ]
   | first [ by rewrite Hn3 in Hxcat; apply elem_of_nil in Hxcat
           | exists x3; split; [apply Hsub; set_solver | by apply Hof] ] ]).
Qed.

Lemma distinct_categories (pool : list WordOption) a b :
  NoDup (word <$> pool) → a ∈ pool → b ∈ pool →
  category a ≠ category b → word a ≠ word b.
Proof.
  intros Hnd [i Hi]%list_elem_of_lookup [j Hj]%list_elem_of_lookup Hcat Hw.
  assert (i = j) as ->; [|congruence].
  apply (NoDup_lookup _ i j (word a) Hnd).
  - by rewrite list_lookup_fmap, Hi.
  - by rewrite list_lookup_fmap, Hj, Hw.
Qed.

Lemma easy_medium_words_distinct round :
  round = 1 ∨ round = 2 → NoDup (word <$> wordPool round).
Proof. intros [-> | ->]; by apply (bool_decide_unpack _). Qed.

(** X21: in the first two rounds, whatever is excluded, the options
    carry pairwise different words. *)
Lemma generateWordOptions_distinct_easy_medium round ex rs options :
  round = 1 ∨ round = 2 →
  generateWordOptions round ex rs options →
  NoDup (word <$> options).
Proof.
  intros Hround%easy_medium_words_distinct (sel & Hsel & Hperm).
  rewrite Hperm. clear options Hperm.
  unfold selectWords in Hsel.
  set (avail := filter (λ x, word x ∉ ex) (wordPool round)) in *.
  assert (∀ c y, y ∈ ofCategory c avail →
                 y ∈ wordPool round ∧ category y = c) as Hof.
  { intros c y [? [_ ?]%list_elem_of_filter]%list_elem_of_filter. done. }
  assert (∀ a b ca cb, a ∈ ofCategory ca avail → b ∈ ofCategory cb avail →
                       ca ≠ cb → word a ≠ word b) as Hdiff.
  { intros a b ca cb [Ha <-]%Hof [Hb <-]%Hof Hne.
    by apply (distinct_categories (wordPool round)). }
  apply bind_Some in Hsel as ([s1 rs1] & H1 & Hsel).
  apply bind_Some in Hsel as ([s2 rs2] & H2 & Hsel).
  apply bind_Some in Hsel as ([s3 rs3] & H3 & Hsel).
  apply fmap_Some in Hsel as (out & Hfill & ->).
  apply fillUp_inv in Hfill as (_ & _ & _ & Hnodup).
  assert (NoDup (word <$> s3)) as Hs3.
  { apply pushRandom_inv in H1
      as [[_ [= -> ->]]|(x1 & r1 & Hx1 & [= -> ->] & _)];
    apply pushRandom_inv in H2
      as [[_ [= -> ->]]|(x2 & r2 & Hx2 & [= -> ->] & _)];
    apply pushRandom_inv in H3
      as [[_ [= -> ->]]|(x3 & r3 & Hx3 & [= -> ->] & _)];
    simpl in *;
    repeat match goal with
      | Ha : ?a ∈ ofCategory _ avail, Hb : ?b ∈ ofCategory _ avail |- _ =>
          lazymatch goal with
          | _ : word a ≠ word b |- _ => fail
          | _ => assert (word a ≠ word b)
                   by (by apply (Hdiff _ _ _ _ Ha Hb))
          end
      end;
    repeat (apply NoDup_cons; split;
            [rewrite ?not_elem_of_cons; split_and?;
             first [done | apply not_elem_of_nil]|]);
    apply NoDup_nil_2. }
  apply (sublist_NoDup _ (word <$> out)); [by apply Hnodup|].
  apply fmap_sublist, sublist_take.
Qed.

End word_options.

Lemma generateWordOptions_covers_categories_witness :
  Words.generateWordOptions 1 [] [0; 0; 0]%nat
    [mkWord "Run" ACTION; mkWord "Cat" THING; mkWord "Park" PLACE]
  ∧ ∃ y, y ∈ [mkWord "Run" ACTION; mkWord "Cat" THING; mkWord "Park" PLACE]
         ∧ category y = PLACE.
Proof.
  assert (Words.generateWordOptions 1 [] [0; 0; 0]%nat
            [mkWord "Run" ACTION; mkWord "Cat" THING; mkWord "Park" PLACE])
    as Hgen by (by eexists; split; [reflexivity|]).
  split; [exact Hgen|].
  apply (generateWordOptions_covers_categories 1 [] [0; 0; 0]%nat _ _ Hgen).
  exists (mkWord "Park" PLACE). split_and!; [|apply not_elem_of_nil|done].
  do 20 apply list_elem_of_further. apply list_elem_of_here.
Defined.

Lemma generateWordOptions_distinct_easy_medium_witness :
  Words.generateWordOptions 2 ["Guitar"] [3; 1; 4]%nat
    [mkWord "Cooking" ACTION; mkWord "Computer" THING;
     mkWord "City" PLACE]
  ∧ NoDup ["Cooking"; "Computer"; "City"].
Proof.
  assert (Words.generateWordOptions 2 ["Guitar"] [3; 1; 4]%nat
            [mkWord "Cooking" ACTION; mkWord "Computer" THING;
             mkWord "City" PLACE])
    as Hgen by (by eexists; split; [reflexivity|]).
  split; [exact Hgen|].
  apply (generateWordOptions_distinct_easy_medium 2 ["Guitar"] [3; 1; 4]%nat
           _ (or_intror eq_refl) Hgen).
Defined.

Section word_options_more.
Import Words.

Lemma pick_is_Some {A} (l : list A) r : l ≠ [] → is_Some (pick l r).
Proof.
  intros Hl. unfold pick. apply lookup_lt_is_Some.
  apply Nat.mod_upper_bound. by destruct l.
Qed.

Lemma pushRandom_Some ws selected r rs :
  ws ≠ [] →
  ∃ x, pick ws r = Some x
       ∧ pushRandom ws (selected, r :: rs) = Some (selected ++ [x], rs).
Proof.
  intros Hws. destruct (pick_is_Some ws r Hws) as [x Hx].
  exists x. split; [done|]. unfold pushRandom.
  rewrite bool_decide_true by (destruct ws; [done|simpl; lia]).
  by rewrite Hx.
Qed.

Lemma ofCategory_elem_of c (l : list WordOption) x :
  x ∈ ofCategory c l → x ∈ l ∧ category x = c.
Proof. by intros [? ?]%list_elem_of_filter. Qed.

(** X22: whatever the draws and the shuffle, at most three words are
    offered, each an entry of the round's word list whose word is not
    excluded. *)
Theorem generateWordOptions_from_pool round ex rs options :
  generateWordOptions round ex rs options →
  (length options ≤ 3)%nat
  ∧ ∀ y, y ∈ options → y ∈ wordPool round ∧ (word y ∉ ex).
Proof.
  intros (sel & Hsel & Hperm).
  unfold selectWords in Hsel.
  set (avail := filter (λ x, word x ∉ ex) (wordPool round)) in *.
  apply bind_Some in Hsel as ([s1 rs1] & H1 & Hsel).
  apply bind_Some in Hsel as ([s2 rs2] & H2 & Hsel).
  apply bind_Some in Hsel as ([s3 rs3] & H3 & Hsel).
  apply fmap_Some in Hsel as (out & Hfill & ->).
  split; [rewrite Hperm, length_take; lia|].
  assert (∀ y, y ∈ avail → y ∈ wordPool round ∧ (word y ∉ ex)) as Havail.
  { by intros y [? ?]%list_elem_of_filter. }
  assert (∀ y, y ∈ s3 → y ∈ avail) as Hs3.
  { apply pushRandom_inv in H1
      as [[_ [= -> ->]]|(x1 & r1 & [Hx1 _]%ofCategory_elem_of & [= -> ->] & _)];
    apply pushRandom_inv in H2
      as [[_ [= -> ->]]|(x2 & r2 & [Hx2 _]%ofCategory_elem_of & [= -> ->] & _)];
    apply pushRandom_inv in H3
      as [[_ [= -> ->]]|(x3 & r3 & [Hx3 _]%ofCategory_elem_of & [= -> ->] & _)];
    simpl; intros y Hy;
    repeat (apply elem_of_cons in Hy as [->|Hy]; [done|]);
    by apply elem_of_nil in Hy. }
  apply fillUp_inv in Hfill as (_ & _ & Hsup & _).
  intros y Hy. rewrite Hperm in Hy.
  apply (subseteq_take 3 out) in Hy. apply Havail.
  destruct (Hsup y Hy); auto.
Qed.

(** X23: when each of the three categories has a word left, three draws
    are enough: the options are the three picks, one per category, and
    the loop that tops the selection up is not entered. *)
Theorem generateWordOptions_three_draws round ex r1 r2 r3 rs :
  let avail := filter (λ x, word x ∉ ex) (wordPool round) in
  ofCategory ACTION avail ≠ [] →
  ofCategory THING avail ≠ [] →
  ofCategory PLACE avail ≠ [] →
  ∃ a t p,
    pick (ofCategory ACTION avail) r1 = Some a
    ∧ pick (ofCategory THING avail) r2 = Some t
    ∧ pick (ofCategory PLACE avail) r3 = Some p
    ∧ selectWords round ex (r1 :: r2 :: r3 :: rs) = Some [a; t; p]
    ∧ category a = ACTION ∧ category t = THING ∧ category p = PLACE.
Proof.
  intros avail Ha Ht Hp.
  destruct (pushRandom_Some _ [] r1 (r2 :: r3 :: rs) Ha) as (a & Hpa & H1).
  destruct (pushRandom_Some _ [a] r2 (r3 :: rs) Ht) as (t & Hpt & H2).
  destruct (pushRandom_Some _ [a; t] r3 rs Hp) as (p & Hpp & H3).
  exists a, t, p. split_and!; [done..| | | |].
  - unfold selectWords. fold avail.
    rewrite H1. cbn [mbind option_bind app]. rewrite H2.
    cbn [mbind option_bind app]. rewrite H3. cbn [mbind option_bind app].
    by destruct rs.
  - by apply pick_elem_of, ofCategory_elem_of in Hpa as [_ ?].
  - by apply pick_elem_of, ofCategory_elem_of in Hpt as [_ ?].
  - by apply pick_elem_of, ofCategory_elem_of in Hpp as [_ ?].
Qed.

Lemma fillUp_stuck avail rs : ∀ selected,
  avail ≠ [] → (length avail < 3)%nat →
  NoDup selected → (∀ x, x ∈ selected → x ∈ avail) →
  fillUp avail selected rs = None.
Proof.
  induction rs as [|r rs IH]; intros selected Hne Hlen Hnd Hsub.
  all: assert (length selected < 3)%nat as Hsel
    by (apply (NoDup_submseteq _ _ Hnd), submseteq_length in Hsub; lia).
  all: assert (0 < length avail)%nat as Hpos
    by (destruct avail; [done|simpl; lia]).
  all: simpl; rewrite !bool_decide_true by done; simpl.
  { done. }
  destruct (pick_is_Some avail r Hne) as [x Hx]. rewrite Hx.
  apply pick_elem_of in Hx.
  destruct (list_find _ selected) as [?|] eqn:Hfind; [by apply IH|].
  apply IH; [done..| |].
  - apply NoDup_app. split_and!; [done| |apply NoDup_singleton].
    intros y Hy ->%list_elem_of_singleton.
    apply list_find_None in Hfind. rewrite Forall_forall in Hfind.
    by apply (Hfind x).
  - intros y [Hy| ->%list_elem_of_singleton]%elem_of_app; auto.
Qed.

(** X24: with no word left, nothing is drawn and the empty list is
    returned; with one or two entries of the round's list left, the loop
    that tops the selection up to three can never finish: whatever the
    draws, however many, the call has not returned when they are used
    up. *)
Theorem generateWordOptions_too_few_words round ex rs :
  let avail := filter (λ x, word x ∉ ex) (wordPool round) in
  (avail = [] → selectWords round ex rs = Some [])
  ∧ (avail ≠ [] → (length avail < 3)%nat →
     selectWords round ex rs = None
     ∧ ∀ options, ¬ generateWordOptions round ex rs options).
Proof.
  intros avail. split.
  - intros Hnil. unfold selectWords. fold avail. rewrite Hnil.
    by destruct rs.
  - intros Hne Hlen.
    assert (selectWords round ex rs = None) as Hnone.
    { unfold selectWords. fold avail.
      assert (∀ c x, x ∈ ofCategory c avail → x ∈ avail ∧ category x = c)
        as Hof by (intros c x; apply ofCategory_elem_of).
      destruct (pushRandom (ofCategory ACTION avail) ([], rs))
        as [[s1 rs1]|] eqn:H1; [|done]. cbn [mbind option_bind].
      destruct (pushRandom (ofCategory THING avail) (s1, rs1))
        as [[s2 rs2]|] eqn:H2; [|done]. cbn [mbind option_bind].
      destruct (pushRandom (ofCategory PLACE avail) (s2, rs2))
        as [[s3 rs3]|] eqn:H3; [|done]. cbn [mbind option_bind fst snd].
      rewrite fillUp_stuck; [done..| |].
      - apply pushRandom_inv in H1
          as [[_ [= -> ->]]|(x1 & r1 & [Hx1 Hc1]%Hof & [= -> ->] & _)];
        apply pushRandom_inv in H2
          as [[_ [= -> ->]]|(x2 & r2 & [Hx2 Hc2]%Hof & [= -> ->] & _)];
        apply pushRandom_inv in H3
          as [[_ [= -> ->]]|(x3 & r3 & [Hx3 Hc3]%Hof & [= -> ->] & _)];
        simpl;
        repeat (apply NoDup_cons; split;
                [rewrite ?not_elem_of_cons; split_and?;
                 first [congruence | apply not_elem_of_nil]|]);
        apply NoDup_nil_2.
      - apply pushRandom_inv in H1
          as [[_ [= -> ->]]|(x1 & r1 & [Hx1 _]%Hof & [= -> ->] & _)];
        apply pushRandom_inv in H2
          as [[_ [= -> ->]]|(x2 & r2 & [Hx2 _]%Hof & [= -> ->] & _)];
        apply pushRandom_inv in H3
          as [[_ [= -> ->]]|(x3 & r3 & [Hx3 _]%Hof & [= -> ->] & _)];
        simpl; intros y Hy;
        repeat (apply elem_of_cons in Hy as [->|Hy]; [done|]);
        by apply elem_of_nil in Hy. }
    split; [done|]. intros options (sel & Hsel & _). congruence.
Qed.

End word_options_more.

Lemma generateWordOptions_from_pool_witness :
  Words.generateWordOptions 1 ["Cat"] [0; 0; 0]%nat
    [mkWord "Park" PLACE; mkWord "Run" ACTION; mkWord "Dog" THING]
  ∧ (length [mkWord "Park" PLACE; mkWord "Run" ACTION; mkWord "Dog" THING]
     ≤ 3)%nat
  ∧ (mkWord "Dog" THING ∈ Words.wordPool 1)
  ∧ ("Dog" ∉ ["Cat"]).
Proof.
  assert (Words.generateWordOptions 1 ["Cat"] [0; 0; 0]%nat
            [mkWord "Park" PLACE; mkWord "Run" ACTION; mkWord "Dog" THING])
    as Hgen.
  { eexists. split; [reflexivity|].
    etrans; [apply Permutation_swap|].
    apply Permutation_skip, Permutation_swap. }
  split; [exact Hgen|].
  destruct (generateWordOptions_from_pool _ _ _ _ Hgen) as [Hlen Hin].
  split; [exact Hlen|]. apply (Hin (mkWord "Dog" THING)).
  do 2 apply list_elem_of_further. apply list_elem_of_here.
Defined.

Lemma generateWordOptions_three_draws_witness :
  Words.selectWords 1 ["Run"; "Cat"; "Park"] [0; 0; 0; 5]%nat
  = Some [mkWord "Jump" ACTION; mkWord "Dog" THING; mkWord "Beach" PLACE].
Proof.
  destruct (generateWordOptions_three_draws 1 ["Run"; "Cat"; "Park"]
              0 0 0 [5%nat])
    as (a & t & p & Ha & Ht & Hp & Hsel & _); [by vm_compute..|].
  rewrite Hsel.
  vm_compute in Ha, Ht, Hp.
  by injection Ha as <-; injection Ht as <-; injection Hp as <-.
Defined.

Lemma generateWordOptions_too_few_words_witness :
  Words.selectWords 1 (word <$> drop 2 Words.EASY_WORDS)
    [0; 1; 2; 3; 4; 5]%nat = None
  ∧ Words.selectWords 1 (word <$> Words.EASY_WORDS) [0; 1]%nat = Some [].
Proof.
  destruct (generateWordOptions_too_few_words 1
              (word <$> drop 2 Words.EASY_WORDS) [0; 1; 2; 3; 4; 5]%nat)
    as [_ Hfew].
  destruct (generateWordOptions_too_few_words 1
              (word <$> Words.EASY_WORDS) [0; 1]%nat) as [Hnone _].
  split.
  - apply Hfew; [by vm_compute|vm_compute; lia].
  - apply Hnone. by vm_compute.
Defined.

(** *** The masked word *)

Lemma concat_singletons_get (f : nat → ascii → ascii) (l : list ascii) :
  ∀ i ch, l !! i = Some ch →
    String.get (2 * i)
      (String.concat " " (imap (λ i c, String (f i c) EmptyString) l))
    = Some (f i ch).
Proof.
  revert f. induction l as [|a l IH]; intros f i ch Hi; [done|].
  destruct i as [|i]; simpl in Hi.
  - injection Hi as ->. simpl. by destruct (imap _ l).
  - specialize (IH (f ∘ S) i ch Hi).
    replace (2 * S i)%nat with (S (S (2 * i))) by lia.
    cbn [imap]. destruct l as [|b l]; [done|].
    change (String.get (2 * i)
              (String.concat " "
                 (imap ((λ i c, String (f i c) EmptyString) ∘ S) (b :: l)))
            = Some (f (S i) ch)).
    exact IH.
Qed.

Lemma indicesToReveal_elem_of elapsed len i :
  i ∈ indicesToReveal elapsed len
  ↔ (i = 0%nat ∧ 30 ≤ elapsed)
    ∨ (i = (len / 2)%nat ∧ 60 ≤ elapsed ∧ (4 ≤ len)%nat).
Proof.
  unfold indicesToReveal. rewrite elem_of_app.
  destruct (30 <=? elapsed) eqn:H30; destruct (60 <=? elapsed) eqn:H60;
    simpl; try case_bool_decide;
    rewrite ?list_elem_of_singleton, ?elem_of_nil; lia.
Qed.

(** C7 (as the code has it): every position of the word is displayed on
    its own, at twice its index.  A character that is not alphanumeric is
    displayed as it is.  An alphanumeric character is displayed as it is at
    index 0 once 30 seconds have elapsed, and at index [len / 2] once 60
    seconds have elapsed if the word has at least 4 characters; everywhere
    else it is displayed as the placeholder.  So nothing is revealed before
    30 seconds, and from 30 seconds on the revealed character is the first
    alphanumeric one whenever the word begins with it. *)
Theorem getMaskedWord_positions g wd i ch :
  list_ascii_of_string wd !! i = Some ch →
  let elapsed := TURN_DURATION_SECONDS - timeLeft g in
  let len := String.length wd in
  shownAt (getMaskedWord (Some g) wd) i
  = Some (if JsString.isAlnum ch
          then if bool_decide
                    ((i = 0%nat ∧ 30 ≤ elapsed)
                     ∨ (i = (len / 2)%nat ∧ 60 ≤ elapsed ∧ (4 ≤ len)%nat))
               then ch else "_"%char
          else ch)
  ∧ (elapsed < 30 → JsString.isAlnum ch = true →
     shownAt (getMaskedWord (Some g) wd) i = Some "_"%char)
  ∧ (30 ≤ elapsed → i = 0%nat →
     shownAt (getMaskedWord (Some g) wd) i = Some ch
     ∧ (JsString.isAlnum ch = true → firstAlnum wd = Some 0%nat)).
Proof.
  intros Hi elapsed len.
  assert (shownAt (getMaskedWord (Some g) wd) i
          = Some (if JsString.isAlnum ch
                  then if bool_decide
                            ((i = 0%nat ∧ 30 ≤ elapsed)
                             ∨ (i = (len / 2)%nat ∧ 60 ≤ elapsed
                                ∧ (4 ≤ len)%nat))
                       then ch else "_"%char
                  else ch)) as Hshown.
  { unfold shownAt, getMaskedWord. destruct wd as [|a wd']; [done|].
    rewrite (concat_singletons_get _ _ i ch Hi). f_equal.
    unfold maskChar. destruct (JsString.isAlnum ch); [|done]. cbn [negb].
    by rewrite (bool_decide_ext _ _ (indicesToReveal_elem_of elapsed len i)). }
  split_and!; [done| |].
  - intros Hlt Halnum. rewrite Hshown, Halnum.
    by rewrite bool_decide_false by lia.
  - intros Hge ->. split.
    + rewrite Hshown. destruct (JsString.isAlnum ch); [|done].
      rewrite bool_decide_true; [done|]. by left.
    + intros Halnum. unfold firstAlnum.
      destruct (list_ascii_of_string wd) as [|a l]; [done|].
      injection Hi as ->. simpl. by rewrite decide_True.
Qed.

Lemma getMaskedWord_positions_witness :
  list_ascii_of_string "House" !! 2%nat = Some "u"%char
  ∧ shownAt (getMaskedWord (Some (clientStateAt 60)) "House") 2
    = Some "u"%char
  ∧ getMaskedWord (Some (clientStateAt 0)) "House" = "_ _ _ _ _"
  ∧ getMaskedWord (Some (clientStateAt 30)) "House" = "H _ _ _ _"
  ∧ getMaskedWord (Some (clientStateAt 60)) "House" = "H _ u _ _"
  ∧ getMaskedWord (Some (clientStateAt 60)) "Cat" = "C _ _"
  ∧ getMaskedWord (Some (clientStateAt 60)) "Ice cream" = "I _ _   c _ _ _ _".
Proof.
  split; [done|]. split; [|done].
  exact (proj1 (getMaskedWord_positions (clientStateAt 60) "House" 2
                  "u"%char eq_refl)).
Defined.

(** C7, the first alphanumeric character: for the word "(ok)" it is the
    "o" at index 1, and 30 seconds into the turn it is still masked. *)
Lemma getMaskedWord_first_alnum_masked :
  firstAlnum "(ok)" = Some 1%nat
  ∧ getMaskedWord (Some (clientStateAt 30)) "(ok)" = "( _ _ )"
  ∧ shownAt (getMaskedWord (Some (clientStateAt 30)) "(ok)") 1
    = Some "_"%char
  ∧ getMaskedWord (Some (clientStateAt 79)) "(ok)" = "( _ k )".
Proof. done. Qed.

(** Every word of the three lists begins with an alphanumeric character. *)
Lemma pool_words_begin_alnum :
  Forall (λ x, firstAlnum (word x) = Some 0%nat)
    (Words.EASY_WORDS ++ Words.MEDIUM_WORDS ++ Words.HARD_WORDS).
Proof. by apply (bool_decide_unpack _). Qed.

(** ** Further properties of the registry *)

(** X1: a room that was just created is found under its code, with no
    members, WAITING and with capacity 8, whether or not the code was in
    use before (a room that was stored under it is replaced); the rooms
    under other codes are not touched. *)
Theorem createRoom_getRoom (rooms : Rooms) c n p pw h :
  let r := createRoom rooms c n p pw h in
  getRoom r.1 c = Some r.2
  ∧ room_id r.2 = c ∧ players r.2 = [] ∧ status r.2 = WAITING
  ∧ maxPlayers r.2 = 8%nat ∧ hostId r.2 = h
  ∧ ∀ c', c' ≠ c → getRoom r.1 c' = getRoom rooms c'.
Proof.
  simpl. unfold getRoom. split_and!; try done.
  - apply lookup_insert_eq.
  - intros c' Hne. by apply lookup_insert_ne.
Qed.

(** X2: the public listing holds exactly the summaries of the registered
    rooms that are not private, each with its current member count. *)
Theorem getPublicRooms_lists_public_rooms (rooms : Rooms) info :
  info ∈ getPublicRooms rooms
  ↔ ∃ c r, rooms !! c = Some r ∧ isPrivate r = false ∧ info = roomInfo r.
Proof.
  unfold getPublicRooms. rewrite list_elem_of_fmap. split.
  - intros (r & -> & [Hpub Hin]%list_elem_of_filter).
    apply list_elem_of_fmap in Hin as ([c r'] & -> & Hin).
    apply elem_of_map_to_list in Hin. by exists c, r'.
  - intros (c & r & Hr & Hpub & ->). exists r. split; [done|].
    apply list_elem_of_filter. split; [done|].
    apply list_elem_of_fmap. exists (c, r). split; [done|].
    by apply elem_of_map_to_list.
Qed.

(** X3: for a private room with a non-empty password, the password check
    passes exactly for the attempt that equals it, and a join with any
    other attempt (or none) is answered "Incorrect password" and changes
    nothing; for a room that is not private or has no password every
    attempt passes and the join is decided by [addPlayerToRoom] alone. *)
Theorem joinRoom_password sv c room attempt player :
  sv_rooms sv !! c = Some room →
  (isPrivate room = true → truthy (password room) = true →
   (valid (verifyRoomPassword (sv_rooms sv) c attempt) = true
    ↔ attempt = password room)
   ∧ (attempt ≠ password room →
      On.joinRoom sv c attempt player
      = (sv, AddError "Incorrect password")))
  ∧ (isPrivate room = false ∨ truthy (password room) = false →
     valid (verifyRoomPassword (sv_rooms sv) c attempt) = true
     ∧ (On.joinRoom sv c attempt player).2
       = (addPlayerToRoom (sv_rooms sv) c player).2).
Proof.
  intros Hroom. split.
  - intros Hpriv Hpw.
    assert (valid (verifyRoomPassword (sv_rooms sv) c attempt)
            = bool_decide (password room = attempt)) as Hvalid.
    { unfold verifyRoomPassword. by rewrite Hroom, Hpriv, Hpw. }
    split.
    + rewrite Hvalid, bool_decide_eq_true. split; congruence.
    + intros Hne. unfold On.joinRoom. rewrite Hroom, Hpriv, Hpw, Hvalid.
      by rewrite bool_decide_false by congruence.
  - intros Hopen.
    assert (valid (verifyRoomPassword (sv_rooms sv) c attempt) = true)
      as Hvalid.
    { unfold verifyRoomPassword. rewrite Hroom.
      by destruct Hopen as [-> | ->]; [|rewrite orb_true_r]. }
    split; [done|]. unfold On.joinRoom. rewrite Hroom, Hvalid, andb_false_r.
    by destruct (addPlayerToRoom _ _ _) as [rooms' [e|r]].
Qed.

Lemma joinRoom_password_witness :
  sv_rooms secretServer !! "ROOM02" = Some secretRoom
  ∧ On.joinRoom secretServer "ROOM02" (Some "abd") bob
    = (secretServer, AddError "Incorrect password")
  ∧ On.joinRoom secretServer "ROOM02" None bob
    = (secretServer, AddError "Incorrect password")
  ∧ (valid (verifyRoomPassword (sv_rooms secretServer) "ROOM02" (Some "abc"))
     = true).
Proof.
  assert (sv_rooms secretServer !! "ROOM02" = Some secretRoom) as Hroom
    by apply lookup_singleton_eq.
  split; [done|].
  destruct (joinRoom_password secretServer "ROOM02" secretRoom (Some "abd")
              bob Hroom) as [[_ H1] _]; [done..|].
  destruct (joinRoom_password secretServer "ROOM02" secretRoom None
              bob Hroom) as [[_ H2] _]; [done..|].
  destruct (joinRoom_password secretServer "ROOM02" secretRoom (Some "abc")
              bob Hroom) as [[H3 _] _]; [done..|].
  split_and!; [by apply H1 | by apply H2 | by apply H3].
Defined.

Lemma addPlayerToRoom_error (rooms : Rooms) c player rooms' e :
  addPlayerToRoom rooms c player = (rooms', AddError e) → rooms' = rooms.
Proof.
  unfold addPlayerToRoom. destruct (rooms !! c) as [room|]; [|congruence].
  repeat case_bool_decide; try congruence;
    destruct (list_find _ _); try congruence;
    repeat case_bool_decide; congruence.
Qed.

Lemma list_find_id_elem_of (ps : list Player) pid :
  is_Some (list_find (λ p, pl_id p = pid) ps) ↔ pid ∈ pl_id <$> ps.
Proof.
  split.
  - intros [[i p] (Hi & Hid & _)%list_find_Some].
    apply list_elem_of_fmap. exists p. split; [done|].
    by eapply list_elem_of_lookup_2.
  - intros (p & -> & Hp)%list_elem_of_fmap.
    by apply (list_find_elem_of (λ q, pl_id q = pl_id p) ps p).
Qed.

Lemma addPlayerToRoom_ok (rooms : Rooms) c player rooms' room' :
  addPlayerToRoom rooms c player = (rooms', AddOk room') →
  ∃ room,
    rooms !! c = Some room
    ∧ rooms' = <[c := room']> rooms
    ∧ status room' = WAITING
    ∧ pl_id player ∈ memberIds room'
    ∧ (room' = room
       ∨ (pl_id player ∉ memberIds room)
         ∧ (length (players room) < maxPlayers room)%nat
         ∧ room' = (if bool_decide (players room = [])
                    then setHost (Some (pl_id player)) else id)
                     (setPlayers (players room ++ [player]) room)).
Proof.
  unfold addPlayerToRoom. destruct (rooms !! c) as [room|] eqn:Hroom; [|done].
  case_bool_decide as Hfull; [done|].
  case_bool_decide as Hplaying; [done|].
  assert (status room = WAITING) as Hst by (by destruct (status room)).
  destruct (list_find _ (players room)) as [found|] eqn:Hfind.
  - intros [= <- <-]. exists room. split_and!; [done| |done| |by left].
    + by rewrite insert_id.
    + apply list_find_id_elem_of. by rewrite Hfind.
  - intros [= <- <-]. exists room. split_and!; [done|done| | |right].
    + by case_bool_decide.
    + unfold memberIds. case_bool_decide; simpl; rewrite fmap_app;
        apply elem_of_app; right; apply list_elem_of_here.
    + split_and!.
      * intros Hin%list_find_id_elem_of. rewrite Hfind in Hin.
        by destruct Hin.
      * lia.
      * simpl. rewrite length_app. simpl.
        destruct (players room); simpl; [done|].
        by rewrite bool_decide_false by lia.
Qed.

(** X4: a join that fails leaves the server as it was; a join that
    succeeds leaves the room WAITING with the player's identity among its
    members, keeps the room's game state if it has one and gives it the
    initial state otherwise, and touches no timeout. *)
Theorem joinRoom_outcome sv c attempt player :
  match On.joinRoom sv c attempt player with
  | (sv', AddError _) => sv' = sv
  | (sv', AddOk room') =>
      sv_rooms sv' !! c = Some room'
      ∧ status room' = WAITING
      ∧ pl_id player ∈ memberIds room'
      ∧ sv_gameStates sv' !! c
        = Some (default initialState (sv_gameStates sv !! c))
      ∧ sv_timeouts sv' = sv_timeouts sv
  end.
Proof.
  unfold On.joinRoom. destruct (sv_rooms sv !! c) as [room|]; [|done].
  destruct (_ && _); [done|].
  destruct (addPlayerToRoom _ _ _) as [rooms' [e|room']] eqn:Hadd; [done|].
  apply addPlayerToRoom_ok in Hadd as (room0 & Hroom0 & -> & Hst & Hin & _).
  simpl. split_and!; [apply lookup_insert_eq|done|done| |done].
  destruct (sv_gameStates sv !! c) eqn:Hgs; simpl; [done|].
  apply lookup_insert_eq.
Qed.

Lemma filter_all {A} (P : A → Prop) `{!∀ x, Decision (P x)} (l : list A) :
  Forall P l → filter P l = l.
Proof.
  induction 1 as [|x l Hx _ IH]; [done|].
  by rewrite filter_cons_True, IH.
Qed.

(** X5: removing an identity from an unknown room reports "Room not
    found" and changes nothing; removing an identity that is not a member
    of a room that has members changes nothing either, and the room is
    reported as kept. *)
Theorem removePlayerFromRoom_non_member (rooms : Rooms) c pid :
  (rooms !! c = None →
   removePlayerFromRoom rooms c pid = (rooms, RemoveError "Room not found"))
  ∧ (∀ room, rooms !! c = Some room →
       players room ≠ [] → pid ∉ memberIds room → hostId room ≠ Some pid →
       removePlayerFromRoom rooms c pid = (rooms, RemoveKept room)).
Proof.
  split.
  - intros Hnone. unfold removePlayerFromRoom. by rewrite Hnone.
  - intros room Hroom Hne Hnotin Hhost.
    rewrite (removePlayerFromRoom_some _ _ _ _ Hroom). simpl.
    assert (filter (λ p, pl_id p ≠ pid) (players room) = players room)
      as ->.
    { apply filter_all, Forall_forall.
      intros p Hp Heq. apply Hnotin. rewrite <- Heq.
      by apply list_elem_of_fmap_2. }
    destruct (players room) as [|p ps] eqn:Hps; [done|].
    rewrite bool_decide_false by done.
    assert (setPlayers (p :: ps) room = room) as ->.
    { rewrite <- Hps. by destruct room. }
    by rewrite insert_id.
Qed.

Lemma removePlayerFromRoom_non_member_witness :
  removePlayerFromRoom {["ROOM01" := lobbyRoom [alice; bob] WAITING]}
    "ROOM01" "p-carol"
  = ({["ROOM01" := lobbyRoom [alice; bob] WAITING]},
     RemoveKept (lobbyRoom [alice; bob] WAITING)).
Proof.
  apply (proj2 (removePlayerFromRoom_non_member _ "ROOM01" "p-carol"));
    [apply lookup_singleton_eq | done | | done].
  by apply (bool_decide_unpack _).
Defined.

(** X6: in a WAITING room below capacity that has members, a newcomer who
    joins and then leaves puts the registry back exactly as it was. *)
Theorem join_then_leave_restores (rooms : Rooms) c room player :
  rooms !! c = Some room →
  players room ≠ [] →
  (length (players room) < maxPlayers room)%nat →
  status room = WAITING →
  pl_id player ∉ memberIds room →
  hostId room ≠ Some (pl_id player) →
  (removePlayerFromRoom (addPlayerToRoom rooms c player).1 c
     (pl_id player)).1 = rooms.
Proof.
  intros Hroom Hne Hlt Hst Hnew Hhost.
  destruct (addPlayerToRoom rooms c player) as [rooms' [e|room']] eqn:Hadd.
  { exfalso. unfold addPlayerToRoom in Hadd. rewrite Hroom in Hadd.
    rewrite bool_decide_false in Hadd by lia.
    rewrite bool_decide_false in Hadd by (by rewrite Hst).
    destruct (list_find _ _); done. }
  apply addPlayerToRoom_ok in Hadd as (room0 & Hroom0 & -> & _ & Hin & Hcases).
  assert (room0 = room) as -> by congruence.
  destruct Hcases as [-> | (_ & _ & ->)]; [done|].
  rewrite bool_decide_false by done. simpl.
  erewrite removePlayerFromRoom_some by apply lookup_insert_eq. simpl.
  assert (filter (λ p, pl_id p ≠ pl_id player) (players room ++ [player])
          = players room) as ->.
  { rewrite filter_app, filter_cons_False, filter_nil, app_nil_r by naive_solver.
    apply filter_all, Forall_forall. intros p Hp Heq. apply Hnew.
    rewrite <- Heq. by apply list_elem_of_fmap_2. }
  destruct (players room) as [|p ps] eqn:Hps; [done|].
  rewrite bool_decide_false by done. simpl.
  rewrite insert_insert_eq. apply insert_id. rewrite Hroom. f_equal.
  rewrite <- Hps. by destruct room.
Qed.

Lemma join_then_leave_restores_witness :
  (removePlayerFromRoom
     (addPlayerToRoom {["ROOM01" := lobbyRoom [alice; bob] WAITING]}
        "ROOM01" carol).1 "ROOM01" "p-carol").1
  = {["ROOM01" := lobbyRoom [alice; bob] WAITING]}.
Proof.
  apply (join_then_leave_restores _ "ROOM01"
           (lobbyRoom [alice; bob] WAITING) carol);
    [apply lookup_singleton_eq | done | simpl; lia | done | | done].
  by apply (bool_decide_unpack _).
Defined.

(** ** Further properties of the guess arbitration *)

Lemma raised_refl p : raised p p.
Proof. unfold raised. split_and!; [done..|lia|done]. Qed.

Lemma raised_trans p q r : raised p q → raised q r → raised p r.
Proof.
  unfold raised. intros (? & ? & ? & ?) (? & ? & ? & ?).
  split_and!; [congruence..|lia|auto].
Qed.

Lemma Forall2_raised_refl ps : Forall2 raised ps ps.
Proof. induction ps; constructor; auto using raised_refl. Qed.

Lemma Forall2_raised_insert (ps : list Player) i p p' :
  ps !! i = Some p → raised p p' → Forall2 raised ps (<[i := p']> ps).
Proof.
  intros Hi Hr. rewrite <- (list_insert_id ps i p Hi) at 1.
  apply Forall2_insert; [apply Forall2_raised_refl|done].
Qed.

Lemma Forall2_raised_trans ps qs rs :
  Forall2 raised ps qs → Forall2 raised qs rs → Forall2 raised ps rs.
Proof.
  intros H. revert rs. induction H as [|p q ps qs Hpq _ IH]; intros rs Hrs.
  - by inversion Hrs.
  - inversion Hrs as [|? r ? rs' Hqr Hrest]; subst.
    constructor; [by eapply raised_trans|by apply IH].
Qed.

Lemma guessPoints_bounds k : 200 ≤ guessPoints k ≤ 500.
Proof.
  unfold guessPoints, POINTS_GUESS_BASE, POINTS_GUESS_DECAY. lia.
Qed.

Lemma handleCorrectGuess_raised (gs : GameStates) c pid ps :
  Forall2 raised ps (handleCorrectGuess gs c pid ps).1.
Proof.
  unfold handleCorrectGuess.
  destruct (gs !! c) as [st|]; [|apply Forall2_raised_refl].
  destruct (list_find _ ps) as [[i player]|] eqn:Hfind;
    [|apply Forall2_raised_refl].
  destruct (hasGuessedCorrectly player) eqn:Hflag;
    [apply Forall2_raised_refl|].
  destruct (filterE (isRankedGuesser st ps) ps) as [ranked|];
    [|apply Forall2_raised_refl].
  apply list_find_Some in Hfind as (Hi & _ & _).
  assert (Forall2 raised ps
            (<[i := awardPoints (guessPoints (length ranked)) player]> ps))
    as Hps1.
  { apply (Forall2_raised_insert _ _ _ _ Hi). unfold raised. simpl.
    pose proof (guessPoints_bounds (length ranked)).
    split_and!; [done..|lia|done]. }
  destruct (filterE _ (<[i:=_]> ps)) as [guessers|]; [|done]. simpl.
  destruct (forallb _ guessers); [|done].
  destruct (_ !! currentPlayerIndex st) as [drawer|] eqn:Hd; [|done].
  eapply Forall2_raised_trans; [exact Hps1|].
  apply (Forall2_raised_insert _ _ _ _ Hd). unfold raised. simpl.
  unfold POINTS_DRAWER_ALL_GUESSED. split_and!; [done..|lia|done].
Qed.

Lemma raised_ids ps qs :
  Forall2 raised ps qs → pl_id <$> qs = pl_id <$> ps.
Proof.
  induction 1 as [|p q ps qs (Hid & _) _ IH]; [done|].
  by rewrite !fmap_cons, Hid, IH.
Qed.

(** X7: whatever [handleCorrectGuess] does - return a result, return
    null or throw - it leaves the players in place and in order with their
    identities and names, never lowers a score and never clears a guess
    flag. *)
Theorem handleCorrectGuess_never_lowers (gs : GameStates) c pid ps :
  let ps' := (handleCorrectGuess gs c pid ps).1 in
  length ps' = length ps
  ∧ pl_id <$> ps' = pl_id <$> ps
  ∧ ∀ j p', ps' !! j = Some p' →
      ∃ p, ps !! j = Some p ∧ pl_name p' = pl_name p
           ∧ score p ≤ score p'
           ∧ (hasGuessedCorrectly p = true → hasGuessedCorrectly p' = true).
Proof.
  intros ps'. pose proof (handleCorrectGuess_raised gs c pid ps) as H.
  fold ps' in H. split_and!.
  - symmetry. by eapply Forall2_length.
  - by apply raised_ids.
  - intros j p' Hj.
    destruct (Forall2_lookup_r _ _ _ _ _ H Hj) as (p & Hp & _ & ? & ? & ?).
    eauto.
Qed.




(** ** Invariants of the server *)

Lemma gs_inplace_refl c gs : gs_inplace c gs gs.
Proof. unfold gs_inplace. split_and!; eauto. Qed.

Lemma gs_inplace_trans c gs1 gs2 gs3 :
  gs_inplace c gs1 gs2 → gs_inplace c gs2 gs3 → gs_inplace c gs1 gs3.
Proof.
  intros (Hf1 & Hs1 & Hk1) (Hf2 & Hs2 & Hk2). split_and!.
  - intros c' Hne. by rewrite Hf2, Hf1.
  - auto.
  - intros st3 (st2 & H2 & Hok2)%Hk2.
    destruct (Hk1 _ H2) as (st1 & H1 & Hok1). eauto.
Qed.

Lemma gs_inplace_onState f c (gs : GameStates) :
  (∀ st, timeLeft_ok st → timeLeft_ok (f st)) →
  gs_inplace c gs (onState f gs c).1.
Proof.
  intros Hf. unfold onState.
  destruct (gs !! c) as [st|] eqn:Hst; simpl; [|apply gs_inplace_refl].
  split_and!.
  - intros c' Hne. by apply lookup_insert_ne.
  - intros _. by rewrite lookup_insert_eq.
  - intros st'. rewrite lookup_insert_eq. intros [= <-]. eauto.
Qed.

Lemma rooms_inplace_refl c rooms : rooms_inplace c rooms rooms.
Proof. unfold rooms_inplace. split_and!; eauto. Qed.

Lemma rooms_inplace_insert c (rooms : Rooms) r r' :
  rooms !! c = Some r → (room_ok c r → room_ok c r') →
  rooms_inplace c rooms (<[c := r']> rooms).
Proof.
  intros Hr Hok. split_and!.
  - intros c' Hne. by apply lookup_insert_ne.
  - intros _. by rewrite lookup_insert_eq.
  - intros r''. rewrite lookup_insert_eq. intros [= <-]. eauto.
Qed.

(** A step that changes both stores in place keeps what holds for every
    room code. *)
Lemma inplace_inv c sv sv' :
  rooms_inplace c (sv_rooms sv) (sv_rooms sv') →
  gs_inplace c (sv_gameStates sv) (sv_gameStates sv') →
  same_elsewhere c sv sv' ∧ (inv_at c sv → inv_at c sv').
Proof.
  intros (Hrf & Hrs & Hrk) (Hgf & Hgs & Hgk). split.
  - intros c' Hne. split; auto.
  - intros (Hdom & Hroom & Htime). split_and!.
    + split.
      * intros [r' (r & Hr & _)%Hrk]. apply Hgs, Hdom. eauto.
      * intros [st' (st & Hst & _)%Hgk]. apply Hrs, Hdom. eauto.
    + intros r' (r & Hr & Hok)%Hrk. eauto.
    + intros st' (st & Hst & Hok)%Hgk. eauto.
Qed.

Lemma timeLeft_ok_steps st :
  timeLeft_ok st →
  timeLeft_ok (startGame_state st)
  ∧ (∀ n, timeLeft_ok (startRound_state n st))
  ∧ (∀ i ws, timeLeft_ok (startTurn_state i ws st))
  ∧ (∀ w, timeLeft_ok (selectWord_state w st))
  ∧ (∀ d, timeLeft_ok (updateCanvas_state d st))
  ∧ (∀ m, timeLeft_ok (addMessage_state m st))
  ∧ timeLeft_ok (endTurn_state st)
  ∧ timeLeft_ok (endRound_state st)
  ∧ timeLeft_ok (decrementTimer_state st)
  ∧ (∀ h, timeLeft_ok (armTimer_state h st)).
Proof.
  unfold timeLeft_ok, TURN_DURATION_SECONDS. simpl.
  intros H. split_and!; try done; intros; lia.
Qed.

Lemma room_ok_same_ids c r r' :
  room_id r' = room_id r → maxPlayers r' = maxPlayers r →
  hostId r' = hostId r → memberIds r' = memberIds r →
  room_ok c r → room_ok c r'.
Proof.
  unfold room_ok. intros Hid Hmax Hhost Hids (? & ? & ? & Hlen & ?).
  assert (length (players r') = length (players r)) as Hl.
  { apply (f_equal length) in Hids. unfold memberIds in Hids.
    by rewrite !length_fmap in Hids. }
  rewrite Hid, Hmax, Hhost, Hids, Hl. done.
Qed.

Ltac gs_step_ok :=
  apply gs_inplace_onState;
  let st := fresh "st" in let Hok := fresh "Hok" in
  intros st Hok; apply (timeLeft_ok_steps st Hok).

Ltac gs_chain :=
  lazymatch goal with
  | |- gs_inplace ?c ?gs ?gs => apply gs_inplace_refl
  | |- gs_inplace ?c ?gs (onState ?f ?gs ?c).1 => gs_step_ok
  | |- gs_inplace ?c ?gs (onState ?f ?X ?c).1 =>
      apply (gs_inplace_trans c gs X); [gs_chain | gs_step_ok]
  end.

Lemma decrementTimer_fst (gs : GameStates) c :
  (decrementTimer gs c).1 = (onState decrementTimer_state gs c).1.
Proof. unfold decrementTimer. by destruct (onState _ _ _). Qed.

Lemma startGame_fst (gs : GameStates) c ps :
  (startGame gs c ps).1.1 = (onState startGame_state gs c).1.
Proof. unfold startGame, onState. by destruct (gs !! c). Qed.

Lemma startGame_players (gs : GameStates) c ps :
  pl_id <$> (startGame gs c ps).1.2 = pl_id <$> ps.
Proof.
  unfold startGame. destruct (gs !! c); [|done]. simpl.
  rewrite <- list_fmap_compose. by apply list_fmap_ext.
Qed.

Lemma room_ok_add c room player :
  room_ok c room →
  pl_id player ∉ memberIds room →
  (length (players room) < maxPlayers room)%nat →
  room_ok c ((if bool_decide (players room = [])
              then setHost (Some (pl_id player)) else id)
               (setPlayers (players room ++ [player]) room)).
Proof.
  unfold room_ok, memberIds. intros (Hid & Hmax & Hnd & Hlen & Hhost) Hnew Hlt.
  assert (NoDup (pl_id <$> players room ++ [player])) as Hnd'.
  { rewrite fmap_app. apply NoDup_app. split_and!; [done| |apply NoDup_singleton].
    intros x Hx ->%list_elem_of_singleton. done. }
  case_bool_decide as Hempty; simpl; rewrite length_app; simpl.
  - split_and!; [done..|lia|by rewrite Hempty].
  - split_and!; [done..|lia|].
    rewrite Hhost. by destruct (players room).
Qed.

Lemma room_ok_remove c room pid first rest :
  room_ok c room →
  filter (λ p, pl_id p ≠ pid) (players room) = first :: rest →
  room_ok c (if bool_decide (hostId room = Some pid)
             then setHost (Some (pl_id first))
                    (setPlayers (first :: rest) room)
             else setPlayers (first :: rest) room).
Proof.
  unfold room_ok, memberIds. intros (Hid & Hmax & Hnd & Hlen & Hhost) Hrem.
  assert (NoDup (pl_id <$> first :: rest)) as Hnd'.
  { rewrite <- Hrem. apply (sublist_NoDup _ _ Hnd).
    apply fmap_sublist, sublist_filter. }
  assert (length (first :: rest) ≤ length (players room))%nat as Hlen'.
  { rewrite <- Hrem. apply length_filter. }
  case_bool_decide as Hh; simpl in *; (split_and!; [done..|lia|]); [done|].
  destruct (players room) as [|h t] eqn:Hps; [done|].
  simpl in Hhost. rewrite Hhost. rewrite Hhost in Hh.
  rewrite filter_cons_True in Hrem by congruence.
  by injection Hrem as <- _.
Qed.

Lemma handleRoundEnd_inplace sv c :
  rooms_inplace c (sv_rooms sv) (sv_rooms (handleRoundEnd sv c).1)
  ∧ gs_inplace c (sv_gameStates sv) (sv_gameStates (handleRoundEnd sv c).1).
Proof.
  unfold handleRoundEnd.
  destruct (sv_gameStates sv !! c);
    [|split; [apply rooms_inplace_refl|apply gs_inplace_refl]].
  case_bool_decide; simpl; (split; [apply rooms_inplace_refl|]);
    unfold endRound; gs_chain.
Qed.

Lemma handleStartRound_inplace sv c n :
  rooms_inplace c (sv_rooms sv) (sv_rooms (handleStartRound sv c n).1)
  ∧ gs_inplace c (sv_gameStates sv)
      (sv_gameStates (handleStartRound sv c n).1).
Proof.
  unfold handleStartRound.
  destruct (sv_rooms sv !! c);
    [|split; [apply rooms_inplace_refl|apply gs_inplace_refl]].
  simpl. split; [apply rooms_inplace_refl|].
  unfold addMessage, startRound. gs_chain.
Qed.

Lemma handleNextTurn_inplace sv c i ws :
  rooms_inplace c (sv_rooms sv) (sv_rooms (handleNextTurn sv c i ws).1)
  ∧ gs_inplace c (sv_gameStates sv)
      (sv_gameStates (handleNextTurn sv c i ws).1).
Proof.
  unfold handleNextTurn.
  destruct (sv_rooms sv !! c) as [room|] eqn:Hroom;
    [|split; [apply rooms_inplace_refl|apply gs_inplace_refl]].
  destruct (sv_gameStates sv !! c);
    [|split; [apply rooms_inplace_refl|apply gs_inplace_refl]].
  case_bool_decide; [apply handleRoundEnd_inplace|]. simpl. split.
  - apply (rooms_inplace_insert _ _ room); [done|].
    apply room_ok_same_ids; try done.
    unfold memberIds, resetPlayersForTurn. simpl.
    rewrite <- list_fmap_compose. by apply list_fmap_ext.
  - unfold startTurn. gs_chain.
Qed.

Lemma handleTurnEnd_inplace sv c :
  rooms_inplace c (sv_rooms sv) (sv_rooms (handleTurnEnd sv c))
  ∧ gs_inplace c (sv_gameStates sv) (sv_gameStates (handleTurnEnd sv c)).
Proof.
  unfold handleTurnEnd.
  destruct (sv_rooms sv !! c);
    [|split; [apply rooms_inplace_refl|apply gs_inplace_refl]].
  destruct (sv_gameStates sv !! c);
    [|split; [apply rooms_inplace_refl|apply gs_inplace_refl]].
  simpl. split; [apply rooms_inplace_refl|].
  unfold addMessage, endTurn. gs_chain.
Qed.

Lemma timerTick_inplace sv c :
  rooms_inplace c (sv_rooms sv) (sv_rooms (timerTick sv c))
  ∧ gs_inplace c (sv_gameStates sv) (sv_gameStates (timerTick sv c)).
Proof.
  unfold timerTick.
  pose proof (decrementTimer_fst (sv_gameStates sv) c) as Hfst.
  destruct (decrementTimer (sv_gameStates sv) c) as [gs1 r]. simpl in Hfst.
  assert (gs_inplace c (sv_gameStates sv) gs1) as Hgs1
    by (rewrite Hfst; gs_chain).
  destruct r as [t|]; [|by split; [apply rooms_inplace_refl|]].
  destruct (t <=? 0); [|by split; [apply rooms_inplace_refl|]].
  match goal with
  | |- context [handleTurnEnd ?s c] =>
      destruct (handleTurnEnd_inplace s c) as [Hr Hg]
  end.
  split; [exact Hr|]. by eapply gs_inplace_trans.
Qed.

Lemma submitGuess_inplace sv c pid txt :
  rooms_inplace c (sv_rooms sv) (sv_rooms (submitGuess sv c pid txt).1)
  ∧ gs_inplace c (sv_gameStates sv)
      (sv_gameStates (submitGuess sv c pid txt).1).
Proof.
  unfold submitGuess.
  destruct (sv_rooms sv !! c) as [room|] eqn:Hroom;
    [|split; [apply rooms_inplace_refl|apply gs_inplace_refl]].
  destruct (sv_gameStates sv !! c);
    [|split; [apply rooms_inplace_refl|apply gs_inplace_refl]].
  destruct (list_find _ _) as [[? player]|];
    [|split; [apply rooms_inplace_refl|apply gs_inplace_refl]].
  assert (∀ m, rooms_inplace c (sv_rooms sv) (sv_rooms (postChat sv c m))
               ∧ gs_inplace c (sv_gameStates sv)
                   (sv_gameStates (postChat sv c m))) as Hchat.
  { intros m. simpl. split; [apply rooms_inplace_refl|].
    unfold addMessage. gs_chain. }
  destruct (hasGuessedCorrectly player || _); [apply Hchat|].
  destruct (checkGuess _ _ _ && _); [|apply Hchat].
  pose proof (handleCorrectGuess_raised (sv_gameStates sv) c pid
                (players room)) as Hraised.
  destruct (handleCorrectGuess _ _ _ _) as [ps' [[res|]|]];
    [|apply Hchat|]; simpl in Hraised.
  - assert (rooms_inplace c (sv_rooms sv)
              (<[c := setPlayers ps' room]> (sv_rooms sv))) as Hr.
    { apply (rooms_inplace_insert _ _ room); [done|].
      apply room_ok_same_ids; try done. by apply raised_ids. }
    destruct (gr_allGuessed res); simpl; (split; [exact Hr|]);
      unfold addMessage; gs_chain.
  - simpl. split; [|apply gs_inplace_refl].
    apply (rooms_inplace_insert _ _ room); [done|].
    apply room_ok_same_ids; try done. by apply raised_ids.
Qed.

Lemma On_startGame_inplace sv c pid :
  rooms_inplace c (sv_rooms sv) (sv_rooms (On.startGame sv c pid).1.1)
  ∧ gs_inplace c (sv_gameStates sv)
      (sv_gameStates (On.startGame sv c pid).1.1).
Proof.
  unfold On.startGame.
  destruct (sv_rooms sv !! c) as [room|] eqn:Hroom;
    [|split; [apply rooms_inplace_refl|apply gs_inplace_refl]].
  case_bool_decide; [split; [apply rooms_inplace_refl|apply gs_inplace_refl]|].
  case_bool_decide; [split; [apply rooms_inplace_refl|apply gs_inplace_refl]|].
  pose proof (startGame_fst (sv_gameStates sv) c
                (players (setStatus PLAYING room))) as Hfst.
  pose proof (startGame_players (sv_gameStates sv) c
                (players (setStatus PLAYING room))) as Hids.
  destruct (startGame _ _ _) as [[gs' ps'] r]. simpl in *. split.
  - apply (rooms_inplace_insert _ _ room); [done|].
    by apply room_ok_same_ids.
  - rewrite Hfst. gs_chain.
Qed.

Lemma On_selectWord_inplace sv c pid w h :
  rooms_inplace c (sv_rooms sv) (sv_rooms (On.selectWord sv c pid w h).1)
  ∧ gs_inplace c (sv_gameStates sv)
      (sv_gameStates (On.selectWord sv c pid w h).1).
Proof.
  unfold On.selectWord.
  destruct (sv_rooms sv !! c) as [room|];
    [|split; [apply rooms_inplace_refl|apply gs_inplace_refl]].
  destruct (sv_gameStates sv !! c);
    [|split; [apply rooms_inplace_refl|apply gs_inplace_refl]].
  destruct (players room !! _);
    [|split; [apply rooms_inplace_refl|apply gs_inplace_refl]].
  case_bool_decide; [split; [apply rooms_inplace_refl|apply gs_inplace_refl]|].
  simpl. split; [apply rooms_inplace_refl|].
  unfold armTimer, addMessage, selectWord. gs_chain.
Qed.

Lemma On_drawUpdate_inplace sv c pid d :
  rooms_inplace c (sv_rooms sv) (sv_rooms (On.drawUpdate sv c pid d))
  ∧ gs_inplace c (sv_gameStates sv)
      (sv_gameStates (On.drawUpdate sv c pid d)).
Proof.
  unfold On.drawUpdate.
  destruct (sv_rooms sv !! c) as [room|];
    [|split; [apply rooms_inplace_refl|apply gs_inplace_refl]].
  destruct (sv_gameStates sv !! c);
    [|split; [apply rooms_inplace_refl|apply gs_inplace_refl]].
  destruct (players room !! _);
    [|split; [apply rooms_inplace_refl|apply gs_inplace_refl]].
  case_bool_decide; [split; [apply rooms_inplace_refl|apply gs_inplace_refl]|].
  simpl. split; [apply rooms_inplace_refl|].
  unfold updateCanvas. gs_chain.
Qed.

Lemma On_chatMessage_inplace sv c pid txt :
  rooms_inplace c (sv_rooms sv) (sv_rooms (On.chatMessage sv c pid txt))
  ∧ gs_inplace c (sv_gameStates sv)
      (sv_gameStates (On.chatMessage sv c pid txt)).
Proof.
  unfold On.chatMessage.
  destruct (sv_rooms sv !! c) as [room|];
    [|split; [apply rooms_inplace_refl|apply gs_inplace_refl]].
  destruct (list_find _ _) as [[? player]|];
    [|split; [apply rooms_inplace_refl|apply gs_inplace_refl]].
  simpl. split; [apply rooms_inplace_refl|].
  unfold addMessage. gs_chain.
Qed.

Lemma same_elsewhere_refl c sv : same_elsewhere c sv sv.
Proof. by intros c' _. Qed.

Lemma timeLeft_ok_initial : timeLeft_ok initialState.
Proof. unfold timeLeft_ok, TURN_DURATION_SECONDS. simpl. lia. Qed.

Lemma On_createRoom_inv sv c n p pw :
  same_elsewhere c sv (On.createRoom sv c n p pw).1
  ∧ inv_at c (On.createRoom sv c n p pw).1.
Proof.
  unfold On.createRoom, createRoom, initializeGameState.
  cbn [sv_rooms sv_gameStates fst snd room_id]. split.
  - intros c' Hne. cbn [sv_rooms sv_gameStates fst snd room_id].
    by rewrite !lookup_insert_ne.
  - unfold inv_at. cbn [sv_rooms sv_gameStates fst snd]. rewrite !lookup_insert_eq. split_and!.
    + done.
    + intros r [= <-]. unfold room_ok, memberIds. simpl.
      split_and!; [done..|apply NoDup_nil_2|lia|done].
    + intros st [= <-]. apply timeLeft_ok_initial.
Qed.

Lemma On_joinRoom_inv sv c a pl :
  same_elsewhere c sv (On.joinRoom sv c a pl).1
  ∧ (inv_at c sv → inv_at c (On.joinRoom sv c a pl).1).
Proof.
  unfold On.joinRoom.
  destruct (sv_rooms sv !! c) as [room|] eqn:Hroom;
    [|split; [apply same_elsewhere_refl|done]].
  destruct (_ && _); [split; [apply same_elsewhere_refl|done]|].
  destruct (addPlayerToRoom _ _ _) as [rooms' [e|room']] eqn:Hadd;
    [split; [apply same_elsewhere_refl|done]|].
  apply addPlayerToRoom_ok in Hadd
    as (room0 & Hroom0 & -> & _ & _ & Hcases).
  assert (room0 = room) as -> by congruence. simpl. split.
  - intros c' Hne. cbn [sv_rooms sv_gameStates fst snd].
    rewrite lookup_insert_ne by done. split; [done|].
    destruct (sv_gameStates sv !! c); [done|].
    by apply lookup_insert_ne.
  - intros (Hdom & Hok & Htime). unfold inv_at. cbn [sv_rooms sv_gameStates fst snd].
    rewrite lookup_insert_eq. split_and!.
    + destruct (sv_gameStates sv !! c) eqn:Hgs; [by rewrite Hgs|].
      simpl. by rewrite lookup_insert_eq.
    + intros r [= <-]. destruct Hcases as [-> | (Hnew & Hlt & ->)];
        [by apply Hok|]. apply room_ok_add; auto.
    + intros st. destruct (sv_gameStates sv !! c) eqn:Hgs.
      * rewrite Hgs. intros [= <-]. by apply Htime.
      * simpl. rewrite lookup_insert_eq. intros [= <-].
        apply timeLeft_ok_initial.
Qed.

Lemma leaveRoom_inv sv c pid :
  same_elsewhere c sv (leaveRoom sv c pid)
  ∧ (inv_at c sv → inv_at c (leaveRoom sv c pid)).
Proof.
  unfold leaveRoom.
  destruct (_ && _); [|split; [apply same_elsewhere_refl|done]].
  destruct (sv_rooms sv !! c) as [room|] eqn:Hroom.
  - rewrite (removePlayerFromRoom_some _ _ _ _ Hroom). simpl.
    destruct (filter _ (players room)) as [|first rest] eqn:Hrem; simpl.
    + split.
      * intros c' Hne. cbn [sv_rooms sv_gameStates fst snd].
        by rewrite !lookup_delete_ne.
      * intros _. unfold inv_at. cbn [sv_rooms sv_gameStates fst snd]. rewrite !lookup_delete_eq.
        split_and!; [|done..]. split; by intros [].
    + split.
      * intros c' Hne. cbn [sv_rooms sv_gameStates fst snd].
        by rewrite lookup_insert_ne.
      * intros (Hdom & Hok & Htime). unfold inv_at. cbn [sv_rooms sv_gameStates fst snd].
        rewrite lookup_insert_eq. split_and!.
        -- split; intros _; [by apply Hdom|done].
        -- intros r [= <-]. apply room_ok_remove; [by apply Hok|done].
        -- done.
  - unfold removePlayerFromRoom. rewrite Hroom. simpl.
    split; [by intros c' _|by intros H].
Qed.

Lemma On_restartGame_inv sv c :
  same_elsewhere c sv (On.restartGame sv c).1
  ∧ (inv_at c sv → inv_at c (On.restartGame sv c).1).
Proof.
  unfold On.restartGame.
  destruct (sv_rooms sv !! c) as [room|] eqn:Hroom;
    [|split; [apply same_elsewhere_refl|done]].
  simpl. split.
  - intros c' Hne. cbn [sv_rooms sv_gameStates fst snd room_id].
    by rewrite !lookup_insert_ne.
  - intros (Hdom & Hok & Htime). unfold inv_at. cbn [sv_rooms sv_gameStates fst snd].
    rewrite !lookup_insert_eq. split_and!; [done| |].
    + intros r [= <-]. apply (room_ok_same_ids _ room); try done; [|by apply Hok].
      unfold memberIds. simpl.
      rewrite <- list_fmap_compose. by apply list_fmap_ext.
    + intros st [= <-]. apply timeLeft_ok_initial.
Qed.

(** Every step acts on the entries of its own room code only, and keeps
    what holds for them. *)
Lemma sv_step_at_inv c sv sv' :
  sv_step_at c sv sv' →
  same_elsewhere c sv sv' ∧ (inv_at c sv → inv_at c sv').
Proof.
  destruct 1.
  - destruct (On_createRoom_inv sv c n p pw). auto.
  - apply On_joinRoom_inv.
  - apply leaveRoom_inv.
  - apply inplace_inv; apply On_startGame_inplace.
  - apply inplace_inv; apply On_selectWord_inplace.
  - apply inplace_inv; apply On_drawUpdate_inplace.
  - apply inplace_inv; apply submitGuess_inplace.
  - apply inplace_inv; apply On_chatMessage_inplace.
  - apply On_restartGame_inv.
  - apply inplace_inv; apply timerTick_inplace.
  - apply inplace_inv; apply handleTurnEnd_inplace.
  - unfold advanceAfterTurnEnd. case_bool_decide.
    + apply inplace_inv; apply handleRoundEnd_inplace.
    + apply inplace_inv; apply handleNextTurn_inplace.
  - apply inplace_inv; apply handleStartRound_inplace.
  - apply inplace_inv; apply handleStartRound_inplace.
  - apply inplace_inv; apply handleNextTurn_inplace.
Qed.

Lemma sv_step_inv sv sv' : sv_step sv sv' → sv_inv sv → sv_inv sv'.
Proof.
  intros [c Hstep] Hinv c'.
  destruct (sv_step_at_inv c sv sv' Hstep) as [Hframe Hkeep].
  destruct (decide (c' = c)) as [->|Hne]; [by apply Hkeep|].
  destruct (Hframe c' Hne) as [Hr Hg]. specialize (Hinv c').
  unfold inv_at in *. by rewrite Hr, Hg.
Qed.

Lemma sv_reachable_inv sv : sv_reachable sv → sv_inv sv.
Proof.
  induction 1 as [|sv sv' _ IH Hstep]; [|by eapply sv_step_inv].
  intros c. unfold inv_at, emptyServer. simpl.
  rewrite !lookup_empty. split_and!; [|done..]. split; by intros [].
Qed.

(** X9: on a reachable server the registered rooms and the rooms that
    have a game state are the same. *)
Theorem reachable_rooms_have_states sv :
  sv_reachable sv → dom (sv_rooms sv) = dom (sv_gameStates sv).
Proof.
  intros Hinv%sv_reachable_inv. apply set_eq. intros c.
  rewrite !elem_of_dom. apply (Hinv c).
Qed.

Lemma reachable_rooms_have_states_witness :
  sv_reachable lobbyServer
  ∧ dom (sv_rooms lobbyServer) = dom (sv_gameStates lobbyServer).
Proof.
  split; [apply lobbyServer_reachable|].
  apply reachable_rooms_have_states, lobbyServer_reachable.
Defined.

(** X10: on a reachable server every room is stored under its own id,
    has capacity 8 and at most 8 members, no two members share an
    identity, and the host is the first member of the list (no host
    exactly when there is no member). *)
Theorem reachable_rooms_well_formed sv c r :
  sv_reachable sv → sv_rooms sv !! c = Some r →
  room_id r = c
  ∧ maxPlayers r = 8%nat
  ∧ (length (players r) ≤ 8)%nat
  ∧ NoDup (pl_id <$> players r)
  ∧ hostId r = pl_id <$> head (players r).
Proof.
  intros Hinv%sv_reachable_inv Hr.
  destruct (Hinv c) as (_ & Hok & _).
  destruct (Hok r Hr) as (Hid & Hmax & Hnd & Hlen & Hhost).
  unfold memberIds in *. rewrite Hmax in Hlen.
  split_and!; [done..|]. rewrite Hhost. by destruct (players r).
Qed.

Lemma reachable_rooms_well_formed_witness :
  sv_reachable lobbyServer
  ∧ sv_rooms lobbyServer !! "ROOM01" = Some (lobbyRoom [alice; bob] WAITING)
  ∧ hostId (lobbyRoom [alice; bob] WAITING) = Some "p-alice".
Proof.
  assert (sv_rooms lobbyServer !! "ROOM01"
          = Some (lobbyRoom [alice; bob] WAITING)) as Hr by reflexivity.
  split_and!; [apply lobbyServer_reachable|exact Hr|].
  destruct (reachable_rooms_well_formed lobbyServer "ROOM01" _
              lobbyServer_reachable Hr) as (_ & _ & _ & _ & Hhost).
  exact Hhost.
Defined.

(** X11: a handler or timer callback that runs for one room code leaves
    the room, its members and the game state of every other code as they
    were. *)
Theorem steps_do_not_touch_other_rooms c sv sv' c' :
  sv_step_at c sv sv' → c' ≠ c →
  sv_rooms sv' !! c' = sv_rooms sv !! c'
  ∧ sv_gameStates sv' !! c' = sv_gameStates sv !! c'.
Proof.
  intros Hstep Hne. destruct (sv_step_at_inv c sv sv' Hstep) as [Hframe _].
  by apply Hframe.
Qed.

Lemma steps_do_not_touch_other_rooms_witness :
  sv_step_at "ROOM02" lobbyServer
    (On.createRoom lobbyServer "ROOM02" "Members" true (Some "abc")).1
  ∧ sv_rooms (On.createRoom lobbyServer "ROOM02" "Members" true
                (Some "abc")).1 !! "ROOM01"
    = Some (lobbyRoom [alice; bob] WAITING).
Proof.
  split; [apply sv_createRoom|].
  destruct (steps_do_not_touch_other_rooms "ROOM02" lobbyServer _ "ROOM01"
              (sv_createRoom "ROOM02" lobbyServer "Members" true (Some "abc")))
    as [Hr _]; [done|].
  rewrite Hr. reflexivity.
Defined.

(** ** Further properties of the socket handlers *)

(** X12: a guess is acknowledged as correct only while the phase is
    DRAWING, when the text matches the word, and when the sender is a
    member who has not yet guessed and is not the drawer; a guess that is
    not acknowledged as correct changes no player and schedules nothing:
    it is refused without any change, or logged as a chat line. *)
Theorem submitGuess_gate sv c pid txt sv' reply :
  submitGuess sv c pid txt = (sv', Returned reply) →
  (isCorrect reply = Some true →
   ∃ room st i player,
     sv_rooms sv !! c = Some room
     ∧ sv_gameStates sv !! c = Some st
     ∧ phase st = DRAWING
     ∧ checkGuess (sv_gameStates sv) c txt = true
     ∧ list_find (λ p, pl_id p = pid) (players room) = Some (i, player)
     ∧ hasGuessedCorrectly player = false
     ∧ ∀ d, players room !! currentPlayerIndex st = Some d → pl_id d ≠ pid)
  ∧ (isCorrect reply ≠ Some true →
     sv_rooms sv' = sv_rooms sv
     ∧ sv_timeouts sv' = sv_timeouts sv
     ∧ (success reply = false → sv' = sv)
     ∧ (success reply = true →
        ∃ name, sv_gameStates sv'
                = (addMessage (sv_gameStates sv) c
                     (chatMessage pid name txt false)).1)).
Proof.
  unfold submitGuess. revert sv' reply.
  destruct (sv_rooms sv !! c) as [room|] eqn:Hroom;
    [|intros sv' reply [= <- <-]; by split].
  destruct (sv_gameStates sv !! c) as [st|] eqn:Hst;
    [|intros sv' reply [= <- <-]; by split].
  destruct (list_find _ _) as [[i player]|] eqn:Hfind;
    [|intros sv' reply [= <- <-]; by split].
  assert (∀ sv1 r1,
            (postChat sv c (chatMessage pid (pl_name player) txt false),
             Returned (mkReply true (Some false) None))
            = (sv1, Returned r1) →
            (isCorrect r1 = Some true → False)
            ∧ (isCorrect r1 ≠ Some true →
               sv_rooms sv1 = sv_rooms sv
               ∧ sv_timeouts sv1 = sv_timeouts sv
               ∧ (success r1 = false → sv1 = sv)
               ∧ (success r1 = true →
                  ∃ name, sv_gameStates sv1
                          = (addMessage (sv_gameStates sv) c
                               (chatMessage pid name txt false)).1)))
    as Hwrong.
  { intros sv1 r1 [= <- <-]. split; [done|]. intros _.
    split_and!; [done..|]. intros _. by eexists. }
  destruct (hasGuessedCorrectly player || _) eqn:Hgate.
  { intros sv' reply [Hno Hyes]%Hwrong. split; [by intros ?%Hno|done]. }
  destruct (checkGuess _ _ _) eqn:Hcheck.
  2: { intros sv' reply [Hno Hyes]%Hwrong. split; [by intros ?%Hno|done]. }
  case_bool_decide as Hphase.
  2: { intros sv' reply [Hno Hyes]%Hwrong. split; [by intros ?%Hno|done]. }
  simpl.
  destruct (handleCorrectGuess _ _ _ _) as [ps' [[res|]|]]; [| |done].
  2: { intros sv' reply [Hno Hyes]%Hwrong. split; [by intros ?%Hno|done]. }
  intros sv' reply [= <- <-]. split; [|done]. intros _.
  apply orb_false_elim in Hgate as [Hflag Hdrawer].
  exists room, st, i, player. split_and!; try done.
  intros d Hd. rewrite Hd in Hdrawer.
  by apply bool_decide_eq_false in Hdrawer.
Qed.

Lemma submitGuess_gate_witness :
  (submitGuess raceServer "ROOM01" "p-alice" "cat").2
  = Returned (mkReply true (Some false) None)
  ∧ sv_rooms (submitGuess raceServer "ROOM01" "p-alice" "cat").1
    = sv_rooms raceServer.
Proof.
  split; [reflexivity|].
  destruct (submitGuess_gate raceServer "ROOM01" "p-alice" "cat"
              (submitGuess raceServer "ROOM01" "p-alice" "cat").1
              (mkReply true (Some false) None) eq_refl) as [_ H].
  by destruct H as [Hrooms _].
Defined.



(** X15: a draw-update either changes nothing, or comes from the player
    at the current drawer index and replaces the canvas snapshot of the
    room's state and nothing else (in whatever phase the state is). *)
Theorem On_drawUpdate_outcome sv c pid d :
  On.drawUpdate sv c pid d = sv
  ∨ ∃ room st drawer,
      sv_rooms sv !! c = Some room
      ∧ sv_gameStates sv !! c = Some st
      ∧ players room !! currentPlayerIndex st = Some drawer
      ∧ pl_id drawer = pid
      ∧ On.drawUpdate sv c pid d
        = {| sv_rooms := sv_rooms sv;
             sv_gameStates :=
               <[c := updateCanvas_state d st]> (sv_gameStates sv);
             sv_timeouts := sv_timeouts sv |}.
Proof.
  unfold On.drawUpdate.
  destruct (sv_rooms sv !! c) as [room|] eqn:Hroom; [|by left].
  destruct (sv_gameStates sv !! c) as [st|] eqn:Hst; [|by left].
  destruct (players room !! _) as [drawer|] eqn:Hd; [|by left].
  case_bool_decide as Hpid; [by left|]. right.
  exists room, st, drawer. split_and!; try done; try (by apply dec_stable).
  unfold updateCanvas, onState. by rewrite Hst.
Qed.



(** ** The countdown of a turn *)

Lemma withState_withState sv c st st' :
  withState (withState sv c st) c st' = withState sv c st'.
Proof. unfold withState. cbn [sv_rooms sv_gameStates sv_timeouts]. by rewrite insert_insert_eq. Qed.

Lemma decrementTimer_some (gs : GameStates) c st :
  gs !! c = Some st →
  decrementTimer gs c
  = (<[c := decrementTimer_state st]> gs, Some (Z.max 0 (timeLeft st - 1))).
Proof. intros Hst. unfold decrementTimer, onState. by rewrite Hst. Qed.

Lemma handleTurnEnd_some sv c room st :
  sv_rooms sv !! c = Some room →
  sv_gameStates sv !! c = Some st →
  handleTurnEnd sv c
  = {| sv_rooms := sv_rooms sv;
       sv_gameStates :=
         <[c := addMessage_state (revealMessage (currentWord st))
                  (endTurn_state st)]> (sv_gameStates sv);
       sv_timeouts := sv_timeouts sv ++ [(6000, AdvanceAfterTurnEnd c)] |}.
Proof.
  intros Hroom Hst. unfold handleTurnEnd. rewrite Hroom, Hst.
  unfold addMessage, endTurn, onState. rewrite Hst. cbn [fst].
  rewrite lookup_insert_eq. cbn [fst mbind option_bind].
  by rewrite insert_insert_eq.
Qed.

Lemma timerTick_running sv c st :
  sv_gameStates sv !! c = Some st → 1 < timeLeft st →
  timerTick sv c = withState sv c (setTimeLeft (timeLeft st - 1) st).
Proof.
  intros Hst Hlt. unfold timerTick.
  rewrite (decrementTimer_some _ _ _ Hst).
  rewrite (proj2 (Z.leb_gt _ _)) by lia.
  unfold withState. do 2 f_equal. unfold decrementTimer_state, setTimeLeft.
  f_equal. lia.
Qed.

Lemma timerTick_last sv c room st :
  sv_rooms sv !! c = Some room →
  sv_gameStates sv !! c = Some st → timeLeft st ≤ 1 →
  timerTick sv c
  = {| sv_rooms := sv_rooms sv;
       sv_gameStates :=
         <[c := addMessage_state (revealMessage (currentWord st))
                  (endTurn_state (setTimeLeft 0 st))]> (sv_gameStates sv);
       sv_timeouts := sv_timeouts sv ++ [(6000, AdvanceAfterTurnEnd c)] |}.
Proof.
  intros Hroom Hst Hle. unfold timerTick.
  rewrite (decrementTimer_some _ _ _ Hst).
  rewrite (proj2 (Z.leb_le _ _)) by lia.
  erewrite handleTurnEnd_some;
    [|exact Hroom|cbn [sv_gameStates]; apply lookup_insert_eq].
  cbn [sv_rooms sv_gameStates sv_timeouts]. rewrite insert_insert_eq.
  do 3 f_equal.
  unfold decrementTimer_state, setTimeLeft, endTurn_state, addMessage_state.
  cbn. f_equal. lia.
Qed.

Lemma ticks_running k : ∀ sv c st,
  sv_gameStates sv !! c = Some st → Z.of_nat k < timeLeft st →
  ticks (S k) sv c
  = timerTick (withState sv c (setTimeLeft (timeLeft st - Z.of_nat k) st)) c.
Proof.
  induction k as [|k IH]; intros sv c st Hst Hlt.
  - cbn [ticks]. f_equal. unfold withState. destruct sv as [rooms gs ts].
    cbn [sv_rooms sv_gameStates sv_timeouts] in *. f_equal.
    rewrite insert_id; [done|]. rewrite Hst. f_equal.
    destruct st. unfold setTimeLeft. cbn. f_equal. lia.
  - change (ticks (S (S k)) sv c) with (ticks (S k) (timerTick sv c) c).
    rewrite (timerTick_running sv c st Hst) by lia.
    rewrite (IH _ c (setTimeLeft (timeLeft st - 1) st)).
    + rewrite withState_withState. do 2 f_equal.
      unfold setTimeLeft. cbn. f_equal. lia.
    + unfold withState. cbn [sv_gameStates]. apply lookup_insert_eq.
    + cbn [timeLeft setTimeLeft]. lia.
Qed.

(** X19: with [t > 0] seconds on the clock of a registered room, each of
    the first [t - 1] ticks of the interval takes one second off and
    changes nothing else; the [t]-th tick takes the clock to 0, clears the
    interval handle, puts the state in TURN_END, appends the reveal
    message and schedules the advance 6000 ms ahead. *)
Theorem ticks_until_turn_end sv c room st :
  sv_rooms sv !! c = Some room →
  sv_gameStates sv !! c = Some st →
  0 < timeLeft st →
  (∀ k, (0 < k)%nat → Z.of_nat k < timeLeft st →
     ticks k sv c
     = withState sv c (setTimeLeft (timeLeft st - Z.of_nat k) st))
  ∧ ticks (Z.to_nat (timeLeft st)) sv c
    = {| sv_rooms := sv_rooms sv;
         sv_gameStates :=
           <[c := {| phase := TURN_END; currentRound := currentRound st;
                     totalRounds := totalRounds st;
                     currentPlayerIndex := currentPlayerIndex st;
                     currentWord := currentWord st;
                     wordOptions := wordOptions st; timeLeft := 0;
                     messages :=
                       messages st ++ [revealMessage (currentWord st)];
                     canvasData := canvasData st;
                     usedWords := usedWords st;
                     timerInterval := None |}]> (sv_gameStates sv);
         sv_timeouts :=
           sv_timeouts sv ++ [(6000, AdvanceAfterTurnEnd c)] |}.
Proof.
  intros Hroom Hst Hpos. split.
  - intros [|k] Hk Hlt; [lia|].
    rewrite (ticks_running k sv c st Hst) by lia.
    erewrite timerTick_running;
      [|unfold withState; cbn [sv_gameStates]; apply lookup_insert_eq
       |cbn [timeLeft setTimeLeft]; lia].
    rewrite withState_withState. f_equal.
    unfold setTimeLeft. cbn. f_equal. lia.
  - destruct (Z.to_nat (timeLeft st)) as [|k] eqn:Hn; [lia|].
    rewrite (ticks_running k sv c st Hst) by lia.
    erewrite timerTick_last;
      [|exact Hroom|unfold withState; cbn [sv_gameStates];
                    apply lookup_insert_eq
       |cbn [timeLeft setTimeLeft]; lia].
    unfold withState. cbn [sv_rooms sv_gameStates sv_timeouts].
    by rewrite insert_insert_eq.
Qed.

Lemma ticks_until_turn_end_witness :
  sv_rooms partyDrawing !! "ROOM01"
  = Some (lobbyRoom [alice; bob; carol; dave] PLAYING)
  ∧ sv_gameStates partyDrawing !! "ROOM01"
    = Some (setTimeLeft 80 partyTickedState)
  ∧ (phase <$> sv_gameStates (ticks 80 partyDrawing "ROOM01") !! "ROOM01")
    = Some TURN_END
  ∧ sv_timeouts (ticks 80 partyDrawing "ROOM01")
    = [(6000, AdvanceAfterTurnEnd "ROOM01")].
Proof.
  assert (sv_rooms partyDrawing !! "ROOM01"
          = Some (lobbyRoom [alice; bob; carol; dave] PLAYING)) as Hroom
    by (by vm_compute).
  assert (sv_gameStates partyDrawing !! "ROOM01"
          = Some (setTimeLeft 80 partyTickedState)) as Hst
    by (by vm_compute).
  assert (0 < timeLeft (setTimeLeft 80 partyTickedState)) as Hpos by done.
  destruct (ticks_until_turn_end _ _ _ _ Hroom Hst Hpos) as [_ Hend].
  change (Z.to_nat (timeLeft (setTimeLeft 80 partyTickedState)))
    with 80%nat in Hend.
  split_and!; [exact Hroom|exact Hst|..]; rewrite Hend.
  - cbn [sv_gameStates]. by rewrite lookup_insert_eq.
  - cbn [sv_timeouts]. by vm_compute.
Defined.

(** ** The flow of a game *)




(** X28: a round starts only for a registered room; the state is then
    in ROUND_START of the round asked for, its log holds just the
    announcement of the round, and the first turn is scheduled 3000 ms
    ahead for the member at index 0.  The round number itself is not
    checked against the number of rounds. *)
Theorem handleStartRound_outcome sv c n :
  let r := handleStartRound sv c n in
  (sv_rooms sv !! c = None → r = (sv, []))
  ∧ (is_Some (sv_rooms sv !! c) →
     r.2 = [(3000, CallHandleNextTurn c 0)]
     ∧ sv_rooms r.1 = sv_rooms sv
     ∧ sv_timeouts r.1 = sv_timeouts sv
     ∧ ∀ st, sv_gameStates sv !! c = Some st →
         ∃ st', sv_gameStates r.1 !! c = Some st'
                ∧ phase st' = ROUND_START
                ∧ currentRound st' = n
                ∧ messages st'
                  = [systemMessage ("Round " +:+ pretty n +:+ " begins!")]
                ∧ currentPlayerIndex st' = currentPlayerIndex st
                ∧ usedWords st' = usedWords st
                ∧ timeLeft st' = timeLeft st).
Proof.
  intros r. unfold r, handleStartRound. split.
  - by intros ->.
  - intros [room ->]. cbn [fst snd sv_rooms sv_timeouts sv_gameStates].
    split_and!; [done..|]. intros st Hst.
    unfold addMessage, startRound, onState. rewrite Hst. cbn [fst].
    rewrite lookup_insert_eq. cbn [fst]. rewrite lookup_insert_eq.
    eexists. split; [done|]. done.
Qed.

Lemma handleStartRound_outcome_witness :
  is_Some (sv_rooms lobbyServer !! "ROOM01")
  ∧ (handleStartRound lobbyServer "ROOM01" 7).2
    = [(3000, CallHandleNextTurn "ROOM01" 0)].
Proof.
  assert (is_Some (sv_rooms lobbyServer !! "ROOM01")) as Hroom
    by (by eexists; vm_compute).
  split; [exact Hroom|].
  by destruct (handleStartRound_outcome lobbyServer "ROOM01" 7)
    as [_ Hsome]; destruct (Hsome Hroom) as [? _].
Defined.



(** ** The layout of the masked word *)

Lemma concat_singletons_length (f : nat → ascii → ascii) (l : list ascii) :
  l ≠ [] →
  String.length
    (String.concat " " (imap (λ i c, String (f i c) EmptyString) l))
  = (2 * length l - 1)%nat.
Proof.
  revert f. induction l as [|a l IH]; intros f Hl; [done|].
  destruct l as [|b l]; [done|].
  specialize (IH (f ∘ S) ltac:(done)).
  change (S (S (String.length
                  (String.concat " "
                     (imap (λ i c, String ((f ∘ S) i c) EmptyString)
                        (b :: l)))))
          = (2 * length (a :: b :: l) - 1)%nat).
  rewrite IH. simpl. lia.
Qed.

Lemma concat_singletons_sep (f : nat → ascii → ascii) (l : list ascii) :
  ∀ i, (S i < length l)%nat →
    String.get (2 * i + 1)
      (String.concat " " (imap (λ i c, String (f i c) EmptyString) l))
    = Some " "%char.
Proof.
  revert f. induction l as [|a l IH]; intros f i Hi; [simpl in Hi; lia|].
  destruct l as [|b l]; [simpl in Hi; lia|].
  destruct i as [|i]; [done|].
  specialize (IH (f ∘ S) i ltac:(simpl in *; lia)).
  replace (2 * S i + 1)%nat with (S (S (2 * i + 1))) by lia.
  cbn [imap].
  change (String.get (2 * i + 1)
            (String.concat " "
               (imap ((λ i c, String (f i c) EmptyString) ∘ S) (b :: l)))
          = Some " "%char).
  exact IH.
Qed.

Lemma length_list_ascii (s : string) :
  length (list_ascii_of_string s) = String.length s.
Proof. induction s; simpl; congruence. Qed.

(** X30: without a state, or for the empty word, the masked word is
    empty; otherwise it shows one character per character of the word,
    separated by single spaces, so a word of [n] characters is displayed
    on [2n - 1] characters, whatever the clock says. *)
Theorem getMaskedWord_layout g wd :
  getMaskedWord None wd = ""
  ∧ getMaskedWord g "" = ""
  ∧ ∀ st, wd ≠ "" →
      String.length (getMaskedWord (Some st) wd)
      = (2 * String.length wd - 1)%nat
      ∧ ∀ i, (S i < String.length wd)%nat →
          String.get (2 * i + 1) (getMaskedWord (Some st) wd)
          = Some " "%char.
Proof.
  split_and!; [done|by destruct g|]. intros st Hwd.
  destruct wd as [|a wd]; [done|]. unfold getMaskedWord.
  split.
  - rewrite concat_singletons_length by done.
    by rewrite length_list_ascii.
  - intros i Hi. apply concat_singletons_sep.
    by rewrite length_list_ascii.
Qed.

Lemma getMaskedWord_layout_witness :
  String.length (getMaskedWord (Some (clientStateAt 60)) "House") = 9%nat
  ∧ String.get 3 (getMaskedWord (Some (clientStateAt 60)) "House")
    = Some " "%char.
Proof.
  destruct (getMaskedWord_layout None "House") as (_ & _ & H).
  destruct (H (clientStateAt 60)) as [Hlen Hsep]; [done|].
  split; [exact Hlen|]. apply (Hsep 1%nat). simpl. lia.
Defined.
